(** * Matrosov.TrafficLight: the mode engine of [RaspberryPi.Server/main.py]

    A shallow embedding of the Raspberry Pi traffic-light server: the
    [Lights] enumeration, the [TrafficLight] output, the three kinds of
    modes ([FixedMode], [SequenceMode], [UdpListenerMode]), the
    [ModesController] and the [looped_sequence] generator, followed by the
    properties established about them.

    Conventions of the embedding.
    - A Python call that may raise returns a [result]: [Ok v] or
      [Raise e] for the exception [e].
    - An object is a record of its attributes; a method is a function from
      the record (and the [TrafficLight] it drives) to the updated ones.
    - A [threading.Event] is the boolean of its internal flag.
    - A thread is a program counter over the blocking calls of its body; one
      scheduling step runs the thread from its program counter to the next
      one.  Time is counted in ticks: a [sleep d] or a [wait d] lasts [d]
      ticks. *)

From Stdlib Require Import ZArith Lia Bool.
From Stdlib Require Import Strings.Byte.
From stdpp Require Import base list.

Set Default Proof Using "Type".
Local Open Scope Z_scope.

(* ===================================================================== *)
(** ** Exceptions *)

Inductive exn : Type :=
| IndexError
| ZeroDivisionError
| ValueError
| StopIteration.

Inductive result (A : Type) : Type :=
| Ok (a : A)
| Raise (e : exn).

Arguments Ok {A} a.
Arguments Raise {A} e.

(** Sequencing: an exception raised by the first statement skips the rest.
    With these instances, [x ← r; k] reads "run [r], name its value [x],
    go on with [k]". *)
Global Instance result_ret : MRet result := fun _ a => Ok a.

Global Instance result_bind : MBind result := fun _ _ k r =>
  match r with
  | Ok a => k a
  | Raise e => Raise e
  end.

(** [l[i]] for a non-negative index: [IndexError] when out of range. *)
Definition getitem {A : Type} (l : list A) (i : nat) : result A :=
  match l !! i with
  | Some a => Ok a
  | None => Raise IndexError
  end.

(** [a % b] on non-negative integers: [ZeroDivisionError] when [b = 0]. *)
Definition py_mod (a b : nat) : result nat :=
  match b with
  | O => Raise ZeroDivisionError
  | S _ => Ok (a mod b)%nat
  end.

(* ===================================================================== *)
(** ** [class Lights(Enum)] *)

Inductive Lights : Type :=
| NONE
| GREEN
| AMBER
| AMBER_GREEN
| RED
| RED_GREEN
| RED_AMBER
| ALL.

(** [lights.value] *)
Definition value (l : Lights) : Z :=
  match l with
  | NONE => 0x00
  | GREEN => 0x01
  | AMBER => 0x02
  | AMBER_GREEN => 0x03
  | RED => 0x04
  | RED_GREEN => 0x05
  | RED_AMBER => 0x06
  | ALL => 0x07
  end.

(** Iterating over the class yields its members in definition order; the
    values are pairwise distinct, so no member is an alias. *)
Definition Lights_members : list Lights :=
  [NONE; GREEN; AMBER; AMBER_GREEN; RED; RED_GREEN; RED_AMBER; ALL].

(** [Lights(v)]: the member whose value is [v], [ValueError] when there is
    none. *)
Definition Lights_call (v : Z) : result Lights :=
  match List.find (fun l => value l =? v) Lights_members with
  | Some l => Ok l
  | None => Raise ValueError
  end.

Global Instance Lights_eq_dec : EqDecision Lights.
Proof. solve_decision. Defined.

(* ===================================================================== *)
(** ** [class TrafficLight] *)

(** A gpiozero [LED] is on after [led.value = x] exactly when [x] is truthy,
    that is, for an integer, when it is not zero. *)
Definition LED : Type := bool.

Definition LED_set_value (x : Z) : LED := negb (x =? 0).

Module TrafficLight.

(** The three LEDs, and the arguments of the calls of [set] so far (oldest
    first).  [calls] is not an attribute of the Python object: it records
    what the object was asked to show, one entry per call. *)
Record t : Type := mk {
  _red : LED;
  _amber : LED;
  _green : LED;
  calls : list Lights
}.

(** [__init__]: gpiozero starts an [LED] switched off. *)
Definition init : t := mk false false false [].

Definition set (self : t) (lights : Lights) : t :=
  let v := value lights in
  {| _red := LED_set_value (Z.land v 0x04);
     _amber := LED_set_value (Z.land v 0x02);
     _green := LED_set_value (Z.land v 0x01);
     calls := calls self ++ [lights] |}.

End TrafficLight.

(* ===================================================================== *)
(** ** Modes and iterators *)

(** What [ModesController] asks of a mode: [enter()] and [exit()].  Every
    mode holds a reference to the one [TrafficLight] of the program, so a
    method takes the traffic light and returns it updated. *)
Class Mode (M : Type) : Type := {
  enter : M -> TrafficLight.t -> M * TrafficLight.t;
  exit : M -> TrafficLight.t -> M * TrafficLight.t
}.

(** What [SequenceMode] asks of [lights_intervals]: [next(it)], which returns
    an item or raises, and leaves the iterator advanced. *)
Class Iterator (I A : Type) : Type :=
  next : I -> result A * I.

(** The iterator after [k] calls of [next], and the outcome of the [k]-th
    call (counting from 0). *)
Fixpoint after_pulls {I A : Type} `{Iterator I A} (k : nat) (it : I) : I :=
  match k with
  | O => it
  | S k' => after_pulls k' (snd (next it))
  end.

Definition nth_pull {I A : Type} `{Iterator I A} (k : nat) (it : I) : result A :=
  fst (next (after_pulls k it)).

(** A step function run along a list of events; [None] when some event of
    the list is not enabled in the state it meets. *)
Fixpoint run {S E : Type} (step : E -> S -> option S) (es : list E) (s : S)
  : option S :=
  match es with
  | [] => Some s
  | e :: es' =>
      match step e s with
      | Some s' => run step es' s'
      | None => None
      end
  end.

(** The number of events of a run at which [p] holds of the state met and
    the event; the run stops counting where an event is not enabled. *)
Fixpoint count_along {S E : Type} (step : E -> S -> option S)
    (p : S -> E -> bool) (es : list E) (s : S) : nat :=
  match es with
  | [] => O
  | e :: es' =>
      ((if p s e then 1 else 0) +
       match step e s with
       | Some s' => count_along step p es' s'
       | None => 0
       end)%nat
  end.

(* ===================================================================== *)
(** ** [looped_sequence] *)

Module looped_sequence.

(** Where the generator stands: not started, suspended at the [yield] with
    the local [i], or finished (after an exception left its body). *)
Inductive frame : Type :=
| Created
| Suspended (i : nat)
| Finished.

Record t (A : Type) : Type := mk {
  l : list A;
  at_ : frame
}.
Arguments mk {A} l at_.
Arguments l {A} _.
Arguments at_ {A} _.

(** [looped_sequence(l)]: calling a generator function runs none of it. *)
Definition call {A : Type} (l : list A) : t A := mk l Created.

(** [yield l[i]]: the generator suspends with [i], or finishes with the
    exception of [l[i]]. *)
Definition yield_at {A : Type} (l : list A) (i : nat) : result A * t A :=
  match getitem l i with
  | Ok x => (Ok x, mk l (Suspended i))
  | Raise e => (Raise e, mk l Finished)
  end.

(** [next(g)]. *)
Definition next {A : Type} (g : t A) : result A * t A :=
  match at_ g with
  | Created => yield_at (l g) 0
  | Suspended i =>
      match py_mod (i + 1) (length (l g)) with
      | Ok i' => yield_at (l g) i'
      | Raise e => (Raise e, mk (l g) Finished)
      end
  | Finished => (Raise StopIteration, g)
  end.

End looped_sequence.

Global Instance looped_sequence_Iterator {A : Type}
  : Iterator (looped_sequence.t A) A := looped_sequence.next.

(* ===================================================================== *)
(** ** [class FixedMode] *)

Module FixedMode.

Record t : Type := mk { _lights : Lights }.

Definition enter (self : t) (tl : TrafficLight.t) : t * TrafficLight.t :=
  (self, TrafficLight.set tl (_lights self)).

Definition exit (self : t) (tl : TrafficLight.t) : t * TrafficLight.t :=
  (self, tl).

End FixedMode.

Global Instance FixedMode_Mode : Mode FixedMode.t :=
  {| enter := FixedMode.enter; exit := FixedMode.exit |}.

(* ===================================================================== *)
(** ** [class SequenceMode] *)

Module SequenceMode.

(** Where the thread running [_thread_start] stands. *)
Inductive pc : Type :=
| InWait              (* in [self._on_activated.wait()] *)
| AtBody              (* [wait()] returned [True]: at the loop body *)
| InSleep (r : nat)   (* in [sleep(interval)], [r] ticks left *)
| Dead (e : exn).     (* ended by the uncaught exception [e] *)

Record t (I : Type) : Type := mk {
  _on_activated : bool;
  _lights_intervals_iterator : I;
  _thread : pc
}.
Arguments mk {I} _ _ _.
Arguments _on_activated {I} _.
Arguments _lights_intervals_iterator {I} _.
Arguments _thread {I} _.

Section Methods.
Context {I : Type} `{Iterator I (Lights * nat)}.

(** [__init__]: the event starts cleared and the thread is started; it
    blocks in [wait()] at once. *)
Definition init (lights_intervals : I) : t I :=
  mk false lights_intervals InWait.

(** One scheduling step of [_thread_start]: from a program counter to
    the next; [None] when the thread is blocked or dead. *)
Definition _thread_start (self : t I) (tl : TrafficLight.t)
  : option (t I * TrafficLight.t) :=
  match _thread self with
  | InWait =>
      if _on_activated self
      then Some (mk (_on_activated self) (_lights_intervals_iterator self) AtBody, tl)
      else None
  | AtBody =>
      match next (_lights_intervals_iterator self) with
      | (Ok (lights, interval), it) =>
          Some (mk (_on_activated self) it (InSleep interval),
                TrafficLight.set tl lights)
      | (Raise e, it) =>
          Some (mk (_on_activated self) it (Dead e), tl)
      end
  | InSleep O =>
      Some (mk (_on_activated self) (_lights_intervals_iterator self) InWait, tl)
  | InSleep (S _) => None
  | Dead _ => None
  end.

(** One tick of time: a running [sleep] has one tick less to go. *)
Definition tick (self : t I) : t I :=
  match _thread self with
  | InSleep (S r) =>
      mk (_on_activated self) (_lights_intervals_iterator self) (InSleep r)
  | _ => self
  end.

Definition enter (self : t I) (tl : TrafficLight.t) : t I * TrafficLight.t :=
  (mk true (_lights_intervals_iterator self) (_thread self), tl).

Definition exit (self : t I) (tl : TrafficLight.t) : t I * TrafficLight.t :=
  (mk false (_lights_intervals_iterator self) (_thread self), tl).

(** What can happen to the mode: time passes, its thread is scheduled,
    the controller calls [enter()] or [exit()]. *)
Inductive event : Type := Tick | Thread | Enter | Exit.

Definition step (e : event) (s : t I * TrafficLight.t)
  : option (t I * TrafficLight.t) :=
  match e with
  | Tick => Some (tick (fst s), snd s)
  | Thread => _thread_start (fst s) (snd s)
  | Enter => Some (enter (fst s) (snd s))
  | Exit => Some (exit (fst s) (snd s))
  end.

(** The thread reads the event: it is scheduled while in [wait()]. *)
Definition reads_flag (s : t I * TrafficLight.t) (e : event) : bool :=
  match e, _thread (fst s) with
  | Thread, InWait => true
  | _, _ => false
  end.

Definition is_tick (e : event) : bool :=
  match e with Tick => true | _ => false end.

Definition is_enter (e : event) : bool :=
  match e with Enter => true | _ => false end.

End Methods.

End SequenceMode.

Global Instance SequenceMode_Mode {I : Type} `{Iterator I (Lights * nat)}
  : Mode (SequenceMode.t I) :=
  {| enter := SequenceMode.enter; exit := SequenceMode.exit |}.

(* ===================================================================== *)
(** ** [class UdpListenerMode] *)

Module UdpListenerMode.

(** Where the thread running [_listener_thread_start] stands. *)
Inductive listener_pc : Type :=
| InRecvfrom                (* in [self._sock.recvfrom(1024)] *)
| ListenerDead (e : exn).   (* ended by the uncaught exception [e] *)

(** Where the thread running [_update_timeout_thread_start] stands. *)
Inductive timeout_pc : Type :=
| InWaitTimeout (r : nat)   (* in [wait(self._update_timeout)], [r] ticks left *)
| AtClear                   (* that [wait] returned [True] *)
| AtUpdate                  (* that [wait] returned [False] *)
| InWait.                   (* in [self._on_updated.wait()] *)

Record t : Type := mk {
  _lights : Lights;
  _is_active : bool;
  _update_timeout : nat;
  _on_updated : bool;
  _listener_thread : listener_pc;
  _update_timeout_thread : timeout_pc
}.

(** [__init__]: both threads are started and block at once, one in
    [recvfrom], the other in the bounded [wait]. *)
Definition init (update_timeout : nat) : t :=
  mk AMBER false update_timeout false InRecvfrom (InWaitTimeout update_timeout).

(** [_update] and [enter()], each run as one step: no other thread is
    inside [_update] or [enter()] meanwhile.  Calls that overlap are
    treated statement by statement in [UdpListenerStatements] below. *)
Definition _update (self : t) (tl : TrafficLight.t) (lights : Lights)
  : t * TrafficLight.t :=
  let self1 := mk lights (_is_active self) (_update_timeout self)
                  (_on_updated self) (_listener_thread self)
                  (_update_timeout_thread self) in
  if _is_active self1
  then (self1, TrafficLight.set tl (_lights self1))
  else (self1, tl).

Definition enter (self : t) (tl : TrafficLight.t) : t * TrafficLight.t :=
  (mk (_lights self) true (_update_timeout self) (_on_updated self)
      (_listener_thread self) (_update_timeout_thread self),
   TrafficLight.set tl (_lights self)).

Definition exit (self : t) (tl : TrafficLight.t) : t * TrafficLight.t :=
  (mk (_lights self) false (_update_timeout self) (_on_updated self)
      (_listener_thread self) (_update_timeout_thread self),
   tl).

(** [self._on_updated.set()] and [self._on_updated.clear()]. *)
Definition _on_updated_assign (b : bool) (self : t) : t :=
  mk (_lights self) (_is_active self) (_update_timeout self) b
     (_listener_thread self) (_update_timeout_thread self).

Definition with_listener (p : listener_pc) (self : t) : t :=
  mk (_lights self) (_is_active self) (_update_timeout self)
     (_on_updated self) p (_update_timeout_thread self).

Definition with_timeout (p : timeout_pc) (self : t) : t :=
  mk (_lights self) (_is_active self) (_update_timeout self)
     (_on_updated self) (_listener_thread self) p.

(** [msg[0]] as an integer. *)
Definition int_of_byte (b : byte) : Z := Z.of_N (Byte.to_N b).

(** One iteration of the loop of [_listener_thread_start], for the
    datagram that [recvfrom] delivers (cut to 1024 bytes). *)
Definition listener_iteration (datagram : list byte) (self : t)
    (tl : TrafficLight.t) : result (t * TrafficLight.t) :=
  let msg := take 1024 datagram in
  b ← getitem msg 0;
  let v := int_of_byte b in
  if (value NONE <=? v) && (v <=? value ALL)
  then
    lights ← Lights_call v;
    let '(self1, tl1) := _update self tl lights in
    Ok (_on_updated_assign true self1, tl1)
  else Ok (self, tl).

(** A datagram arrives: the listener thread, if it still runs, handles it
    and goes back to [recvfrom]; an exception ends the thread. *)
Definition _listener_thread_start (datagram : list byte) (self : t)
    (tl : TrafficLight.t) : t * TrafficLight.t :=
  match _listener_thread self with
  | InRecvfrom =>
      match listener_iteration datagram self tl with
      | Ok s => s
      | Raise e => (with_listener (ListenerDead e) self, tl)
      end
  | ListenerDead _ => (self, tl)
  end.

(** One scheduling step of [_update_timeout_thread_start]; [None] when
    the thread is blocked. *)
Definition _update_timeout_thread_start (self : t) (tl : TrafficLight.t)
  : option (t * TrafficLight.t) :=
  match _update_timeout_thread self with
  | InWaitTimeout r =>
      if _on_updated self then Some (with_timeout AtClear self, tl)
      else match r with
           | O => Some (with_timeout AtUpdate self, tl)
           | S _ => None
           end
  | AtClear =>
      Some (with_timeout (InWaitTimeout (_update_timeout self))
              (_on_updated_assign false self), tl)
  | AtUpdate =>
      let '(self1, tl1) := _update self tl AMBER in
      Some (with_timeout InWait self1, tl1)
  | InWait =>
      if _on_updated self
      then Some (with_timeout (InWaitTimeout (_update_timeout self)) self, tl)
      else None
  end.

(** One tick of time: a running bounded [wait] has one tick less to go. *)
Definition tick (self : t) : t :=
  match _update_timeout_thread self with
  | InWaitTimeout (S r) => with_timeout (InWaitTimeout r) self
  | _ => self
  end.

(** What can happen to the mode: time passes, a datagram arrives, the
    timeout thread is scheduled, the controller calls [enter()] or
    [exit()]. *)
Inductive event : Type :=
| Tick
| Recv (datagram : list byte)
| Timeout
| Enter
| Exit.

Definition step (e : event) (s : t * TrafficLight.t)
  : option (t * TrafficLight.t) :=
  match e with
  | Tick => Some (tick (fst s), snd s)
  | Recv datagram => Some (_listener_thread_start datagram (fst s) (snd s))
  | Timeout => _update_timeout_thread_start (fst s) (snd s)
  | Enter => Some (enter (fst s) (snd s))
  | Exit => Some (exit (fst s) (snd s))
  end.

(** A datagram whose first byte is an integer of [[0,7]]. *)
Definition valid (datagram : list byte) : bool :=
  match datagram with
  | b :: _ => (0 <=? int_of_byte b) && (int_of_byte b <=? 7)
  | [] => false
  end.

(** Silence: anything but the arrival of a valid datagram. *)
Definition silent (e : event) : bool :=
  match e with
  | Recv datagram => negb (valid datagram)
  | _ => true
  end.

Definition is_tick (e : event) : bool :=
  match e with Tick => true | _ => false end.

(** The member that a datagram selects, if it selects one. *)
Definition selected (datagram : list byte) : option Lights :=
  match datagram with
  | b :: _ =>
      match Lights_call (int_of_byte b) with
      | Ok l => Some l
      | Raise _ => None
      end
  | [] => None
  end.

(** The member selected by the last datagram, among those of a list of
    events, that selects one. *)
Fixpoint last_selected (es : list event) : option Lights :=
  match es with
  | [] => None
  | e :: es' =>
      match last_selected es' with
      | Some l => Some l
      | None => match e with Recv datagram => selected datagram | _ => None end
      end
  end.

(** The bounded wait elapses with no signal: the timeout thread is
    scheduled in [wait(self._update_timeout)] with no tick left and the
    event clear, so that [wait] returns [False]. *)
Definition elapses (s : t * TrafficLight.t) (e : event) : bool :=
  match e, _update_timeout_thread (fst s) with
  | Timeout, InWaitTimeout O => negb (_on_updated (fst s))
  | _, _ => false
  end.

(** The fallback is applied: the timeout thread runs [_update(Lights.AMBER)]. *)
Definition falls_back (s : t * TrafficLight.t) (e : event) : bool :=
  match e, _update_timeout_thread (fst s) with
  | Timeout, AtUpdate => true
  | _, _ => false
  end.

End UdpListenerMode.

Global Instance UdpListenerMode_Mode : Mode UdpListenerMode.t :=
  {| enter := UdpListenerMode.enter; exit := UdpListenerMode.exit |}.

(* ===================================================================== *)
(** ** [class ModesController] *)

Module ModesController.

(** A call that the controller makes on the mode at position [k] of its
    list. *)
Inductive call : Type :=
| CallExit (k : nat)
| CallEnter (k : nat).

Record t (M : Type) : Type := mk {
  _i : nat;
  _modes : list M
}.
Arguments mk {M} _ _.
Arguments _i {M} _.
Arguments _modes {M} _.

(** The controller, the traffic light that its modes drive, and the calls
    made on the modes so far (oldest first).  The modes of the list are
    taken to be distinct objects, as in [__main__]: a method mutates the
    mode at its own position only. *)
Record world (M : Type) : Type := mkWorld {
  self : t M;
  traffic_light : TrafficLight.t;
  log : list call
}.
Arguments mkWorld {M} _ _ _.
Arguments self {M} _.
Arguments traffic_light {M} _.
Arguments log {M} _.

Section Methods.
Context {M : Type} `{Mode M}.

Definition init (modes : list M) (tl : TrafficLight.t) : world M :=
  mkWorld (mk 0%nat modes) tl [].

(** [self._modes[k].exit()] *)
Definition modes_exit (k : nat) (w : world M) : result (world M) :=
  m ← getitem (_modes (self w)) k;
  let '(m', tl') := exit m (traffic_light w) in
  Ok (mkWorld (mk (_i (self w)) (<[k := m']> (_modes (self w)))) tl'
              (log w ++ [CallExit k])).

(** [self._modes[k].enter()] *)
Definition modes_enter (k : nat) (w : world M) : result (world M) :=
  m ← getitem (_modes (self w)) k;
  let '(m', tl') := enter m (traffic_light w) in
  Ok (mkWorld (mk (_i (self w)) (<[k := m']> (_modes (self w)))) tl'
              (log w ++ [CallEnter k])).

(** The callback of the button. *)
Definition switch_mode (w : world M) : result (world M) :=
  w1 ← modes_exit (_i (self w)) w;
  i' ← py_mod (_i (self w1) + 1) (length (_modes (self w1)));
  let w2 := mkWorld (mk i' (_modes (self w1))) (traffic_light w1) (log w1) in
  modes_enter (_i (self w2)) w2.

Definition start (w : world M) : result (world M) :=
  modes_enter (_i (self w)) w.

(** What happens to the controller: [start()] is called, or the button
    is pressed. *)
Inductive event : Type := Start | Press.

Definition step (e : event) (w : world M) : result (world M) :=
  match e with
  | Start => start w
  | Press => switch_mode w
  end.

Fixpoint exec (es : list event) (w : world M) : result (world M) :=
  match es with
  | [] => Ok w
  | e :: es' => w' ← step e w; exec es' w'
  end.

End Methods.

(** A mode is active after a log of calls when [enter()] was called on it
    and [exit()] was not called on it since. *)
Definition active (calls : list call) (k : nat) : bool :=
  fold_left
    (fun a c =>
       match c with
       | CallEnter j => if Nat.eqb j k then true else a
       | CallExit j => if Nat.eqb j k then false else a
       end)
    calls false.

(** The positions of the active modes among [n] modes. *)
Definition active_modes (calls : list call) (n : nat) : list nat :=
  List.filter (active calls) (seq 0 n).

(** The positions on which [exit()], respectively [enter()], was called,
    in the order of the calls. *)
Definition exited (calls : list call) : list nat :=
  omap (fun c => match c with CallExit k => Some k | CallEnter _ => None end) calls.

Definition entered (calls : list call) : list nat :=
  omap (fun c => match c with CallEnter k => Some k | CallExit _ => None end) calls.

End ModesController.

(* ===================================================================== *)
(** ** [__main__] *)

(** The configuration of the program, with one tick for a quarter of a
    second, so that every duration of the source is a whole number of
    ticks: [0.5] is 2 ticks, [0.75] is 3, [1.5] is 6, [5.0] is 20 and the
    update timeout [16.0] is 64.  The mode over [random_sequence_lights()]
    draws from [random] and is left out. *)
Module main.

Definition update_timeout : nat := 64.

(** [list(map(lambda x: (x, 0.5), Lights))] *)
Definition all_lights : list (Lights * nat) :=
  map (fun x => (x, 2%nat)) Lights_members.

Definition traffic_cycle : list (Lights * nat) :=
  [ (RED, 20); (RED_AMBER, 6); (GREEN, 20); (NONE, 3); (GREEN, 3);
    (NONE, 3); (GREEN, 3); (NONE, 3); (GREEN, 3); (AMBER, 6) ]%nat.

End main.

(* ===================================================================== *)
(** ** Vocabulary of the properties *)

Section Vocabulary.
Local Open Scope nat_scope.

(** *** [ModesController] *)

(** The state of the controller is well formed over [n] modes. *)
Definition well_formed {M : Type} (n : nat) (w : ModesController.world M) : Prop :=
  ModesController._i (ModesController.self w) < n /\
  length (ModesController._modes (ModesController.self w)) = n.

(** No mode is active, respectively the mode at position [i] is the one
    active mode. *)
Definition none_active (calls : list ModesController.call) : Prop :=
  forall k, ModesController.active calls k = false.

Definition only_active (i : nat) (calls : list ModesController.call) : Prop :=
  forall k, ModesController.active calls k = Nat.eqb k i.

(** At most one mode is active at a moment of a log: no mode, or one. *)
Definition at_most_one (calls : list ModesController.call) : Prop :=
  none_active calls \/ exists i, only_active i calls.

(** At most one mode was active at every moment of a log. *)
Definition never_two (calls : list ModesController.call) : Prop :=
  forall p, p `prefix_of` calls -> at_most_one p.

(** Before anything was asked of the controller no mode is active; from
    then on the current mode is the one active mode. *)
Definition idle {M : Type} (n : nat) (w : ModesController.world M) : Prop :=
  well_formed n w /\
  none_active (ModesController.log w) /\
  never_two (ModesController.log w).

Definition running {M : Type} (n : nat) (w : ModesController.world M) : Prop :=
  well_formed n w /\
  only_active (ModesController._i (ModesController.self w)) (ModesController.log w) /\
  never_two (ModesController.log w).

(** *** [UdpListenerMode] *)

(** The ticks of silence that must still pass before the bounded wait can
    elapse: none is known ([None]) while the timeout thread is past its
    bounded wait and the event is clear. *)
Definition budget (self : UdpListenerMode.t) : option nat :=
  if UdpListenerMode._on_updated self
  then Some (UdpListenerMode._update_timeout self)
  else match UdpListenerMode._update_timeout_thread self with
       | UdpListenerMode.InWaitTimeout r => Some r
       | UdpListenerMode.AtClear => Some (UdpListenerMode._update_timeout self)
       | UdpListenerMode.AtUpdate => None
       | UdpListenerMode.InWait => None
       end.

Definition within (n : nat) (b : option nat) : Prop :=
  match b with
  | Some k => n <= k
  | None => True
  end.

(** A fallback is pending: its wait has elapsed, [_update] is still to run. *)
Definition pending (self : UdpListenerMode.t) : nat :=
  match UdpListenerMode._update_timeout_thread self with
  | UdpListenerMode.AtUpdate => 1
  | _ => 0
  end.

(** The ticks among the events of a run. *)
Definition ticks (es : list UdpListenerMode.event) : nat :=
  length (List.filter UdpListenerMode.is_tick es).

(** *** [SequenceMode] *)

(** The same mode with its event set to [b]. *)
Definition with_flag {I : Type} (b : bool) (s : SequenceMode.t I * TrafficLight.t)
  : SequenceMode.t I * TrafficLight.t :=
  (SequenceMode.mk b (SequenceMode._lights_intervals_iterator (fst s))
     (SequenceMode._thread (fst s)),
   snd s).

(** The steps that the thread may still apply before it reads the event
    again: one when it is past [wait()] and at the loop body, none
    otherwise. *)
Definition credit {I : Type} (self : SequenceMode.t I) : nat :=
  match SequenceMode._thread self with
  | SequenceMode.AtBody => 1
  | _ => 0
  end.

(** The ticks among the events of a run. *)
Definition elapsed (es : list SequenceMode.event) : nat :=
  length (List.filter SequenceMode.is_tick es).

(** The longest duration of a list of steps. *)
Definition longest (l : list (Lights * nat)) : nat := list_max (map snd l).

(** The mode runs over the list [l0], and a pause in progress is no longer
    than the longest step of [l0]. *)
Definition paced (l0 : list (Lights * nat))
    (s : SequenceMode.t (looped_sequence.t (Lights * nat)) * TrafficLight.t)
  : Prop :=
  looped_sequence.l (SequenceMode._lights_intervals_iterator (fst s)) = l0 /\
  forall r, SequenceMode._thread (fst s) = SequenceMode.InSleep r -> r <= longest l0.

End Vocabulary.

(* ===================================================================== *)
(** ** [random_sequence_lights] *)

(** The generator draws from the module [random], which is not part of the
    program: it is taken as a state [R] threaded through two functions,
    [randrange n], which returns an integer and the next state, and
    [uniform], which stands for [random.uniform(0.1, 0.5)] and returns a
    duration of some type [D] and the next state.  The generator has no
    local variable: it is live, or finished after an exception left its
    body.  The items of the tuple are evaluated from left to right:
    [randrange], then [Lights(...)], then [uniform]. *)
Module random_sequence_lights.

Record t (R : Type) : Type := mk {
  rng : R;
  finished : bool
}.
Arguments mk {R} _ _.
Arguments rng {R} _.
Arguments finished {R} _.

Section Oracle.
Context {R D : Type}.
Variable randrange : Z -> R -> Z * R.
Variable uniform : R -> D * R.

(** [random_sequence_lights()] started on the state [r] of [random]. *)
Definition call (r : R) : t R := mk r false.

(** [next(g)]; [len(Lights)] is the number of members. *)
Definition next (g : t R) : result (Lights * D) * t R :=
  if finished g then (Raise StopIteration, g)
  else
    let '(v, r1) := randrange (Z.of_nat (length Lights_members)) (rng g) in
    match Lights_call v with
    | Ok lights =>
        let '(d, r2) := uniform r1 in
        (Ok (lights, d), mk r2 false)
    | Raise e => (Raise e, mk r1 true)
    end.

End Oracle.

End random_sequence_lights.

(* ===================================================================== *)
(** ** [UdpListenerMode], statement by statement *)

(** In [UdpListenerMode] above, a call of [_update] or of [enter()] is one
    step: this is what happens when no other thread is inside one of these
    methods meanwhile.  The methods are not atomic in the program: [_update]
    stores [_lights] before it takes [_is_active_lock], and reads it again
    under the lock; [enter()] calls [set] before it takes the lock.  Here
    each method is the list of its statements, each statement one step on
    the attributes shared by the threads (an assignment of an attribute, or
    a block under the lock, which excludes the other blocks under the
    lock), and two calls that overlap run as any interleaving of their
    statements. *)
Module UdpListenerStatements.

Inductive statement : Type :=
| Store (lights : Lights)   (* [self._lights = lights] *)
| Show                      (* [with lock: if self._is_active: set(self._lights)] *)
| Write                     (* [self._traffic_light.set(self._lights)] *)
| Activate                  (* [with lock: self._is_active = True] *)
| Deactivate.               (* [with lock: self._is_active = False] *)

Definition execute (c : statement) (s : UdpListenerMode.t * TrafficLight.t)
  : UdpListenerMode.t * TrafficLight.t :=
  let self := fst s in
  let tl := snd s in
  match c with
  | Store lights =>
      (UdpListenerMode.mk lights (UdpListenerMode._is_active self)
         (UdpListenerMode._update_timeout self) (UdpListenerMode._on_updated self)
         (UdpListenerMode._listener_thread self)
         (UdpListenerMode._update_timeout_thread self),
       tl)
  | Show =>
      if UdpListenerMode._is_active self
      then (self, TrafficLight.set tl (UdpListenerMode._lights self))
      else (self, tl)
  | Write => (self, TrafficLight.set tl (UdpListenerMode._lights self))
  | Activate =>
      (UdpListenerMode.mk (UdpListenerMode._lights self) true
         (UdpListenerMode._update_timeout self) (UdpListenerMode._on_updated self)
         (UdpListenerMode._listener_thread self)
         (UdpListenerMode._update_timeout_thread self),
       tl)
  | Deactivate =>
      (UdpListenerMode.mk (UdpListenerMode._lights self) false
         (UdpListenerMode._update_timeout self) (UdpListenerMode._on_updated self)
         (UdpListenerMode._listener_thread self)
         (UdpListenerMode._update_timeout_thread self),
       tl)
  end.

Definition perform (cs : list statement)
    (s : UdpListenerMode.t * TrafficLight.t)
  : UdpListenerMode.t * TrafficLight.t :=
  fold_left (fun s c => execute c s) cs s.

(** The bodies of the three methods. *)
Definition _update (lights : Lights) : list statement := [Store lights; Show].

Definition enter : list statement := [Write; Activate].

Definition exit : list statement := [Deactivate].

(** The interleavings of the statements of two threads: each thread keeps
    its own order. *)
Fixpoint interleave {A : Type} (p q : list A) : list (list A) :=
  match p with
  | [] => [q]
  | a :: p' =>
      (fix with_q (q : list A) : list (list A) :=
         match q with
         | [] => [p]
         | b :: q' => map (cons a) (interleave p' q) ++ map (cons b) (with_q q')
         end) q
  end.

End UdpListenerStatements.

(* ===================================================================== *)
(** ** Vocabulary of the further properties *)

Section FurtherVocabulary.
Local Open Scope nat_scope.

(** What the three LEDs show: red, amber, green. *)
Definition leds (tl : TrafficLight.t) : bool * bool * bool :=
  (TrafficLight._red tl, TrafficLight._amber tl, TrafficLight._green tl).

(** The thread of a [SequenceMode] runs its loop body: it pulls an item. *)
Definition pulls {I : Type} (s : SequenceMode.t I * TrafficLight.t)
    (e : SequenceMode.event) : bool :=
  match e, SequenceMode._thread (fst s) with
  | SequenceMode.Thread, SequenceMode.AtBody => true
  | _, _ => false
  end.

(** The items at the positions [j], [j+1], ..., [j+m-1] of the endless
    repetition of [l]. *)
Definition cycle_from {A : Type} (l : list A) (j m : nat) : list A :=
  omap (fun k => l !! (k mod length l)) (seq j m).

Definition no_enter (e : UdpListenerMode.event) : bool :=
  match e with
  | UdpListenerMode.Enter => false
  | _ => true
  end.

(** A stand-in for [random]: the state is a counter, [randrange n] returns
    the counter modulo [n] and [uniform] a duration of 1 to 3 ticks. *)
Definition counter_randrange (n : Z) (r : nat) : Z * nat :=
  ((Z.of_nat r mod n)%Z, S r).

Definition counter_uniform (r : nat) : nat * nat :=
  (S (r mod 3), S r).

(** A controller over the fixed modes [modes], started with the traffic
    light [tl0]: its list is still [modes], [set] was called once for each
    [enter()] of the log, with the lights of the mode entered, and the LEDs
    show the lights of the mode entered last. *)
Definition fixed_history (modes : list FixedMode.t) (tl0 : TrafficLight.t)
    (w : ModesController.world FixedMode.t) : Prop :=
  ModesController._modes (ModesController.self w) = modes /\
  TrafficLight.calls (ModesController.traffic_light w) =
    TrafficLight.calls tl0 ++
    omap (fun k => FixedMode._lights <$> modes !! k)
         (ModesController.entered (ModesController.log w)) /\
  forall k m,
    last (ModesController.entered (ModesController.log w)) = Some k ->
    modes !! k = Some m ->
    leds (ModesController.traffic_light w) =
      leds (TrafficLight.set tl0 (FixedMode._lights m)).

(** The datagrams among the events of a run, in the order of arrival. *)
Definition received (es : list UdpListenerMode.event) : list (list byte) :=
  omap (fun e => match e with
                 | UdpListenerMode.Recv datagram => Some datagram
                 | _ => None
                 end) es.

(** A non-empty datagram arrives, time passes, or the timeout thread is
    scheduled: no call of [enter()] or [exit()]. *)
Definition arrival_or_time (e : UdpListenerMode.event) : bool :=
  match e with
  | UdpListenerMode.Recv [] => false
  | UdpListenerMode.Recv (_ :: _) => true
  | UdpListenerMode.Tick => true
  | UdpListenerMode.Timeout => true
  | UdpListenerMode.Enter => false
  | UdpListenerMode.Exit => false
  end.

End FurtherVocabulary.

(* ===================================================================== *)
(** * Properties of [Lights] and of [TrafficLight.set] *)

Lemma value_range (l : Lights) : 0 <= value l <= 7.
Proof. destruct l; simpl; lia. Qed.

Lemma value_inj (l1 l2 : Lights) : value l1 = value l2 -> l1 = l2.
Proof. destruct l1, l2; simpl; intros H; try reflexivity; discriminate H. Qed.

Lemma Lights_call_value (l : Lights) : Lights_call (value l) = Ok l.
Proof. destruct l; reflexivity. Qed.

Lemma Lights_call_Ok (v : Z) (l : Lights) :
  Lights_call v = Ok l -> value l = v.
Proof.
  unfold Lights_call. destruct (List.find _ _) as [l'|] eqn:E; [|discriminate].
  intros [= <-]. apply List.find_some in E as [_ E]. now apply Z.eqb_eq.
Qed.

Lemma Lights_call_in_range (v : Z) :
  0 <= v <= 7 -> exists l, Lights_call v = Ok l /\ value l = v.
Proof.
  intros Hv.
  assert (v = 0 \/ v = 1 \/ v = 2 \/ v = 3 \/ v = 4 \/ v = 5 \/ v = 6 \/ v = 7)
    as Hc by lia.
  destruct Hc as [->|[->|[->|[->|[->|[->|[->| ->]]]]]]];
    eexists; (split; [reflexivity|reflexivity]).
Qed.

Lemma Lights_call_out_of_range (v : Z) :
  ~ 0 <= v <= 7 -> Lights_call v = Raise ValueError.
Proof.
  intros Hv. destruct (Lights_call v) as [l|e] eqn:E.
  - apply Lights_call_Ok in E. pose proof (value_range l). lia.
  - unfold Lights_call in E. destruct (List.find _ _); [discriminate|].
    now inversion E.
Qed.

(** The guard of the listener, [Lights.NONE.value <= v <= Lights.ALL.value],
    is the test [0 <= v <= 7]. *)
Lemma listener_guard (v : Z) :
  (value NONE <=? v) && (v <=? value ALL) = true <-> 0 <= v <= 7.
Proof. simpl. rewrite andb_true_iff, !Z.leb_le. tauto. Qed.

Lemma int_of_byte_range (b : byte) :
  0 <= UdpListenerMode.int_of_byte b < 256.
Proof.
  unfold UdpListenerMode.int_of_byte.
  pose proof (Byte.to_N_bounded b). lia.
Qed.

(** A datagram whose first byte is outside [[0,7]] leaves the mode and the
    traffic light as they were. *)
Lemma listener_iteration_ignored (b : byte) (rest : list byte)
    (self : UdpListenerMode.t) (tl : TrafficLight.t) :
  ~ 0 <= UdpListenerMode.int_of_byte b <= 7 ->
  UdpListenerMode.listener_iteration (b :: rest) self tl = Ok (self, tl).
Proof.
  intros Hb. unfold UdpListenerMode.listener_iteration.
  change (take 1024 (b :: rest)) with (b :: take 1023 rest).
  cbn [getitem lookup list_lookup mbind result_bind].
  destruct ((value NONE <=? _) && (_ <=? value ALL)) eqn:G; [|reflexivity].
  apply listener_guard in G. contradiction.
Qed.

(** A datagram whose first byte is in [[0,7]] is decoded, stored in
    [_lights] through [_update], and raises [_on_updated]. *)
Lemma listener_iteration_valid (b : byte) (rest : list byte)
    (self : UdpListenerMode.t) (tl : TrafficLight.t) :
  0 <= UdpListenerMode.int_of_byte b <= 7 ->
  exists l,
    value l = UdpListenerMode.int_of_byte b /\
    UdpListenerMode.listener_iteration (b :: rest) self tl =
      Ok (UdpListenerMode._on_updated_assign true
            (fst (UdpListenerMode._update self tl l)),
          snd (UdpListenerMode._update self tl l)).
Proof.
  intros Hb. destruct (Lights_call_in_range _ Hb) as (l & Hl & Hv).
  exists l. split; [exact Hv|].
  unfold UdpListenerMode.listener_iteration.
  change (take 1024 (b :: rest)) with (b :: take 1023 rest).
  cbn [getitem lookup list_lookup mbind result_bind].
  destruct ((value NONE <=? _) && (_ <=? value ALL)) eqn:G.
  - rewrite Hl. cbn [mbind result_bind].
    now destruct (UdpListenerMode._update self tl l).
  - apply not_true_iff_false in G. rewrite listener_guard in G. contradiction.
Qed.

(** C6. Decoding an integer of [[0,7]] with [Lights(v)] gives a member whose
    [value] is that integer again; an integer outside [[0,7]] is the value of
    no member, [Lights(w)] raises [ValueError] for it, and a datagram whose
    first byte is such an integer is ignored by the listener, which does not
    decode it. *)
Theorem Lights_decode_encode (v w : Z) :
  0 <= v <= 7 ->
  ~ 0 <= w <= 7 ->
  (exists l, Lights_call v = Ok l /\ value l = v) /\
  Lights_call w = Raise ValueError /\
  (forall l, value l <> w) /\
  (forall b rest self tl,
     UdpListenerMode.int_of_byte b = w ->
     UdpListenerMode.listener_iteration (b :: rest) self tl = Ok (self, tl)).
Proof.
  intros Hv Hw. repeat split.
  - now apply Lights_call_in_range.
  - now apply Lights_call_out_of_range.
  - intros l <-. apply Hw, value_range.
  - intros b rest self tl <-. now apply listener_iteration_ignored.
Qed.

Lemma Lights_decode_encode_witness :
  (exists l, Lights_call 5 = Ok l /\ value l = 5) /\
  Lights_call 9 = Raise ValueError /\
  (forall l, value l <> 9) /\
  (forall b rest self tl,
     UdpListenerMode.int_of_byte b = 9 ->
     UdpListenerMode.listener_iteration (b :: rest) self tl = Ok (self, tl)).
Proof. apply (Lights_decode_encode 5 9); lia. Defined.

(** C7. After [set(lights)], with [v = lights.value], the red LED is on
    exactly when [v & 0b100] is not zero, the amber LED exactly when
    [v & 0b010] is not zero and the green LED exactly when [v & 0b001] is not
    zero; these are the bits 2, 1 and 0 of [v]. *)
Theorem set_bit_extraction (tl : TrafficLight.t) (lights : Lights) :
  let v := value lights in
  let tl' := TrafficLight.set tl lights in
  (TrafficLight._red tl' = true <-> Z.land v 4 <> 0) /\
  (TrafficLight._amber tl' = true <-> Z.land v 2 <> 0) /\
  (TrafficLight._green tl' = true <-> Z.land v 1 <> 0) /\
  TrafficLight._red tl' = Z.testbit v 2 /\
  TrafficLight._amber tl' = Z.testbit v 1 /\
  TrafficLight._green tl' = Z.testbit v 0 /\
  TrafficLight.calls tl' = TrafficLight.calls tl ++ [lights].
Proof.
  cbv zeta. unfold TrafficLight.set, LED_set_value.
  cbn [TrafficLight._red TrafficLight._amber TrafficLight._green TrafficLight.calls].
  rewrite !negb_true_iff, !Z.eqb_neq.
  destruct lights; cbn; intuition congruence.
Qed.

(* ===================================================================== *)
(** * Properties of [looped_sequence] *)

Local Open Scope nat_scope.

Lemma after_pulls_S {I A : Type} `{Iterator I A} (k : nat) (it : I) :
  after_pulls (S k) it = snd (next (after_pulls k it)).
Proof.
  revert it. induction k as [|k IH]; intros it; [reflexivity|].
  change (after_pulls (S (S k)) it) with (after_pulls (S k) (snd (next it))).
  now rewrite IH.
Qed.

Lemma getitem_lt {A : Type} (l : list A) (i : nat) :
  i < length l -> exists a, l !! i = Some a /\ getitem l i = Ok a.
Proof.
  intros Hi. destruct (lookup_lt_is_Some_2 l i Hi) as [a Ha].
  exists a. unfold getitem. now rewrite Ha.
Qed.

Lemma getitem_ge {A : Type} (l : list A) (i : nat) :
  length l <= i -> getitem l i = Raise IndexError.
Proof.
  intros Hi. unfold getitem. now rewrite (lookup_ge_None_2 l i Hi).
Qed.

Lemma yield_at_lt {A : Type} (l : list A) (i : nat) :
  i < length l ->
  exists a, l !! i = Some a /\
    looped_sequence.yield_at l i = (Ok a, looped_sequence.mk l (looped_sequence.Suspended i)).
Proof.
  intros Hi. destruct (getitem_lt l i Hi) as (a & Ha & Hg).
  exists a. split; [exact Ha|]. unfold looped_sequence.yield_at. now rewrite Hg.
Qed.

Lemma mod_succ (k n : nat) : n <> 0 -> (k mod n + 1) mod n = S k mod n.
Proof.
  intros Hn. rewrite Nat.Div0.add_mod_idemp_l. f_equal. lia.
Qed.

(** After [k + 1] calls of [next], a generator over a non-empty list is
    suspended at position [k mod len(l)]. *)
Lemma looped_sequence_position {A : Type} (l : list A) (k : nat) :
  l <> [] ->
  after_pulls (S k) (looped_sequence.call l) =
    looped_sequence.mk l (looped_sequence.Suspended (k mod length l)).
Proof.
  intros Hl.
  assert (0 < length l) as Hn by (destruct l; [congruence | simpl; lia]).
  induction k as [|k IH].
  - cbn [after_pulls]. unfold next, looped_sequence_Iterator, looped_sequence.next.
    cbn [looped_sequence.call looped_sequence.at_ looped_sequence.l].
    destruct (yield_at_lt l 0 Hn) as (a & _ & ->).
    now rewrite Nat.Div0.mod_0_l.
  - rewrite after_pulls_S, IH.
    unfold next, looped_sequence_Iterator, looped_sequence.next.
    cbn [looped_sequence.at_ looped_sequence.l].
    unfold py_mod. destruct (length l) as [|n] eqn:En; [lia|].
    rewrite <- En in *.
    assert ((k mod length l + 1) mod length l < length l) as Hlt
      by (apply Nat.mod_upper_bound; lia).
    destruct (yield_at_lt l _ Hlt) as (a & _ & ->).
    cbn [snd]. now rewrite mod_succ by lia.
Qed.

Lemma looped_sequence_nth_pull {A : Type} (l : list A) (k : nat) :
  l <> [] ->
  exists a, l !! (k mod length l) = Some a /\
    nth_pull k (looped_sequence.call l) = Ok a.
Proof.
  intros Hl.
  assert (0 < length l) as Hn by (destruct l; [congruence | simpl; lia]).
  assert (k mod length l < length l) as Hlt by (apply Nat.mod_upper_bound; lia).
  destruct (yield_at_lt l _ Hlt) as (a & Ha & Hy).
  exists a. split; [exact Ha|]. unfold nth_pull.
  destruct k as [|k].
  - cbn [after_pulls]. unfold next, looped_sequence_Iterator, looped_sequence.next.
    cbn [looped_sequence.call looped_sequence.at_ looped_sequence.l].
    rewrite Nat.Div0.mod_0_l in Hy. now rewrite Hy.
  - rewrite looped_sequence_position by exact Hl.
    unfold next, looped_sequence_Iterator, looped_sequence.next.
    cbn [looped_sequence.at_ looped_sequence.l].
    unfold py_mod. destruct (length l) as [|n] eqn:En; [lia|].
    rewrite <- En in *. rewrite mod_succ by lia. now rewrite Hy.
Qed.

(** C9. For a non-empty list [l], the [k]-th call of [next] on
    [looped_sequence(l)] (counting from 0) returns [l[k mod len(l)]], and
    leaves the generator suspended at that position over the same list;
    [enter()] and [exit()] of a [SequenceMode] leave its iterator as it
    is, so the position is never reset once the generator is made. *)
Theorem looped_sequence_cycles {A : Type} (l : list A) (k : nat) :
  l <> [] ->
  (exists a, l !! (k mod length l) = Some a /\
     nth_pull k (looped_sequence.call l) = Ok a) /\
  after_pulls (S k) (looped_sequence.call l) =
    looped_sequence.mk l (looped_sequence.Suspended (k mod length l)) /\
  (forall (I : Type) (self : SequenceMode.t I) (tl : TrafficLight.t),
     SequenceMode._lights_intervals_iterator (fst (SequenceMode.enter self tl)) =
       SequenceMode._lights_intervals_iterator self /\
     SequenceMode._lights_intervals_iterator (fst (SequenceMode.exit self tl)) =
       SequenceMode._lights_intervals_iterator self /\
     SequenceMode._lights_intervals_iterator (SequenceMode.tick self) =
       SequenceMode._lights_intervals_iterator self).
Proof.
  intros Hl. split; [|split].
  - now apply looped_sequence_nth_pull.
  - now apply looped_sequence_position.
  - intros I self tl. repeat split.
    unfold SequenceMode.tick. now destruct (SequenceMode._thread self) as [| |[|r]|].
Qed.

Lemma looped_sequence_cycles_witness :
  (exists a, main.traffic_cycle !! (13 mod length main.traffic_cycle) = Some a /\
     nth_pull 13 (looped_sequence.call main.traffic_cycle) = Ok a) /\
  after_pulls 14 (looped_sequence.call main.traffic_cycle) =
    looped_sequence.mk main.traffic_cycle
      (looped_sequence.Suspended (13 mod length main.traffic_cycle)) /\
  (forall (I : Type) (self : SequenceMode.t I) (tl : TrafficLight.t),
     SequenceMode._lights_intervals_iterator (fst (SequenceMode.enter self tl)) =
       SequenceMode._lights_intervals_iterator self /\
     SequenceMode._lights_intervals_iterator (fst (SequenceMode.exit self tl)) =
       SequenceMode._lights_intervals_iterator self /\
     SequenceMode._lights_intervals_iterator (SequenceMode.tick self) =
       SequenceMode._lights_intervals_iterator self).
Proof. apply (looped_sequence_cycles main.traffic_cycle 13). discriminate. Defined.

(** The fourteenth step of the traffic cycle is its fourth one. *)
Example traffic_cycle_pull_13 :
  nth_pull 13 (looped_sequence.call main.traffic_cycle) = Ok (NONE, 3).
Proof. reflexivity. Qed.

Lemma looped_sequence_empty_finished {A : Type} (k : nat) :
  after_pulls (S k) (looped_sequence.call (@nil A)) =
    looped_sequence.mk [] looped_sequence.Finished.
Proof.
  induction k as [|k IH]; [reflexivity|].
  rewrite after_pulls_S, IH. reflexivity.
Qed.

(** A dead thread stays dead: whatever happens next, it calls [set] no
    more and pulls no more from its iterator. *)
Lemma SequenceMode_dead_forever {I : Type} `{Iterator I (Lights * nat)}
    (es : list SequenceMode.event) (s s' : SequenceMode.t I * TrafficLight.t)
    (e : exn) :
  SequenceMode._thread (fst s) = SequenceMode.Dead e ->
  run SequenceMode.step es s = Some s' ->
  SequenceMode._thread (fst s') = SequenceMode.Dead e /\
  SequenceMode._lights_intervals_iterator (fst s') =
    SequenceMode._lights_intervals_iterator (fst s) /\
  snd s' = snd s.
Proof.
  revert s. induction es as [|ev es IH]; intros [m tl] Hd Hr.
  - cbn in Hr. injection Hr as <-. auto.
  - cbn [run] in Hr. cbn [fst snd] in *.
    destruct ev; cbn [SequenceMode.step fst snd] in Hr.
    + unfold SequenceMode.tick in Hr. rewrite Hd in Hr.
      apply IH in Hr; [|exact Hd]. exact Hr.
    + unfold SequenceMode._thread_start in Hr. rewrite Hd in Hr. discriminate.
    + apply IH in Hr; [|exact Hd]. exact Hr.
    + apply IH in Hr; [|exact Hd]. exact Hr.
Qed.

(** C10. Over the empty list, the first call of [next] on
    [looped_sequence([])] raises [IndexError] and finishes the generator,
    which yields nothing afterwards either ([StopIteration]); a
    [SequenceMode] built over it loses its thread to that [IndexError] at
    its first activation, before any call of [set], and whatever happens
    later the thread stays dead and the traffic light untouched.  Over a
    list with at least one element every call of [next] returns an item. *)
Theorem looped_sequence_empty_list (tl : TrafficLight.t) :
  let g := looped_sequence.call (@nil (Lights * nat)) in
  let crashed :=
    (SequenceMode.mk true (looped_sequence.mk [] looped_sequence.Finished)
       (SequenceMode.Dead IndexError), tl) in
  nth_pull 0 g = Raise IndexError /\
  (forall k, nth_pull (S k) g = Raise StopIteration) /\
  run SequenceMode.step
      [SequenceMode.Enter; SequenceMode.Thread; SequenceMode.Thread]
      (SequenceMode.init g, tl) = Some crashed /\
  SequenceMode.step SequenceMode.Thread crashed = None /\
  (forall es s', run SequenceMode.step es crashed = Some s' ->
     SequenceMode._thread (fst s') = SequenceMode.Dead IndexError /\ snd s' = tl) /\
  (forall (x : Lights * nat) xs k,
     exists a, nth_pull k (looped_sequence.call (x :: xs)) = Ok a).
Proof.
  cbv zeta. split; [reflexivity|]. split; [|split; [reflexivity|]].
  - intros k. unfold nth_pull. now rewrite looped_sequence_empty_finished.
  - split; [reflexivity|]. split.
    + intros es s' Hr.
      eapply SequenceMode_dead_forever in Hr; [|reflexivity].
      destruct Hr as (Hd & _ & Htl). auto.
    + intros x xs k.
      destruct (looped_sequence_nth_pull (x :: xs) k) as (a & _ & Ha);
        [discriminate|].
      now exists a.
Qed.

(* ===================================================================== *)
(** * Properties of [ModesController] *)

Section Controller.
Context {M : Type} `{Mode M}.

Import ModesController.

Lemma modes_exit_ok (n k : nat) (w : world M) :
  well_formed n w -> k < n ->
  exists w', modes_exit k w = Ok w' /\ well_formed n w' /\
    _i (self w') = _i (self w) /\ log w' = log w ++ [CallExit k].
Proof.
  intros [Hi Hn] Hk. unfold modes_exit.
  destruct (getitem_lt (_modes (self w)) k) as (m & _ & ->); [lia|].
  cbn [mbind result_bind]. destruct (exit m (traffic_light w)) as [m' tl'].
  eexists. split; [reflexivity|]. unfold well_formed. cbn.
  rewrite length_insert. auto.
Qed.

Lemma modes_enter_ok (n k : nat) (w : world M) :
  well_formed n w -> k < n ->
  exists w', modes_enter k w = Ok w' /\ well_formed n w' /\
    _i (self w') = _i (self w) /\ log w' = log w ++ [CallEnter k].
Proof.
  intros [Hi Hn] Hk. unfold modes_enter.
  destruct (getitem_lt (_modes (self w)) k) as (m & _ & ->); [lia|].
  cbn [mbind result_bind]. destruct (enter m (traffic_light w)) as [m' tl'].
  eexists. split; [reflexivity|]. unfold well_formed. cbn.
  rewrite length_insert. auto.
Qed.

(** [start()] enters the current mode, and does nothing else. *)
Lemma start_ok (n : nat) (w : world M) :
  well_formed n w ->
  exists w', start w = Ok w' /\ well_formed n w' /\
    _i (self w') = _i (self w) /\
    log w' = log w ++ [CallEnter (_i (self w))].
Proof. intros Hw. apply modes_enter_ok; [exact Hw | apply Hw]. Qed.

(** A press of the button leaves the current mode, moves the index on
    (modulo the number of modes) and enters the mode it reaches, in this
    order. *)
Lemma switch_mode_ok (n : nat) (w : world M) :
  well_formed n w ->
  exists w', switch_mode w = Ok w' /\ well_formed n w' /\
    _i (self w') = (_i (self w) + 1) mod n /\
    log w' = log w ++ [CallExit (_i (self w)); CallEnter (_i (self w'))].
Proof.
  intros Hw. pose proof Hw as [Hi Hn]. unfold switch_mode.
  destruct (modes_exit_ok n _ w Hw Hi) as (w1 & -> & [Hi1 Hn1] & Ei & El).
  cbn [mbind result_bind]. rewrite Hn1. unfold py_mod.
  destruct n as [|n']; [lia|]. cbn [mbind result_bind].
  set (i' := (_i (self w1) + 1) mod S n').
  assert (i' < S n') as Hi' by (apply Nat.mod_upper_bound; lia).
  set (w2 := mkWorld (mk i' (_modes (self w1))) (traffic_light w1) (log w1)).
  assert (well_formed (S n') w2) as Hw2 by (split; [exact Hi' | exact Hn1]).
  destruct (modes_enter_ok (S n') (_i (self w2)) w2 Hw2 Hi')
    as (w3 & E3 & Hw3 & Ei3 & El3).
  exists w3. split; [exact E3|]. split; [exact Hw3|].
  rewrite Ei3, El3. cbn [w2 self _i log]. rewrite El, <- app_assoc.
  subst i'. now rewrite Ei.
Qed.

Lemma step_ok (n : nat) (e : event) (w : world M) :
  well_formed n w ->
  exists w', step e w = Ok w' /\ well_formed n w'.
Proof.
  intros Hw. destruct e; cbn [step].
  - destruct (start_ok n w Hw) as (w' & ? & ? & _). eauto.
  - destruct (switch_mode_ok n w Hw) as (w' & ? & ? & _). eauto.
Qed.

Lemma exec_app (es1 es2 : list event) (w : world M) :
  exec (es1 ++ es2) w = w' ← exec es1 w; exec es2 w'.
Proof.
  revert w. induction es1 as [|e es1 IH]; intros w; [reflexivity|].
  cbn [app exec]. destruct (step e w) as [w'|x]; cbn [mbind result_bind]; auto.
Qed.

Lemma init_well_formed (modes : list M) (tl : TrafficLight.t) :
  modes <> [] -> well_formed (length modes) (init modes tl).
Proof.
  intros Hm. split; [|reflexivity]. cbn. destruct modes; [congruence|cbn; lia].
Qed.

End Controller.

(** *** Which modes are active after a log of calls *)

Lemma active_snoc (calls : list ModesController.call)
    (c : ModesController.call) (k : nat) :
  ModesController.active (calls ++ [c]) k =
    match c with
    | ModesController.CallEnter j =>
        if Nat.eqb j k then true else ModesController.active calls k
    | ModesController.CallExit j =>
        if Nat.eqb j k then false else ModesController.active calls k
    end.
Proof. unfold ModesController.active. now rewrite fold_left_app. Qed.

Lemma filter_eqb_seq (i a n : nat) :
  List.filter (fun k => Nat.eqb k i) (seq a n) =
    if (a <=? i) && (i <? a + n) then [i] else [].
Proof.
  revert a. induction n as [|n IH]; intros a; cbn [seq List.filter].
  - destruct (Nat.leb_spec a i), (Nat.ltb_spec i (a + 0));
      cbn [andb]; try reflexivity; lia.
  - rewrite IH.
    destruct (Nat.eqb_spec a i), (Nat.leb_spec (S a) i),
      (Nat.ltb_spec i (S a + n)), (Nat.leb_spec a i),
      (Nat.ltb_spec i (a + S n));
      cbn [andb]; subst; try reflexivity; lia.
Qed.

Lemma none_active_modes (calls : list ModesController.call) (n : nat) :
  none_active calls -> ModesController.active_modes calls n = [].
Proof.
  intros Hn. unfold ModesController.active_modes.
  rewrite (List.filter_ext _ (fun _ => false)) by exact Hn.
  induction (seq 0 n) as [|x xs IH]; [reflexivity | exact IH].
Qed.

Lemma only_active_modes (calls : list ModesController.call) (i n : nat) :
  only_active i calls ->
  ModesController.active_modes calls n = if i <? n then [i] else [].
Proof.
  intros Hn. unfold ModesController.active_modes.
  rewrite (List.filter_ext _ (fun k => Nat.eqb k i)) by exact Hn.
  rewrite filter_eqb_seq. reflexivity.
Qed.

Lemma none_active_nil : none_active [].
Proof. intros k. reflexivity. Qed.

Lemma only_active_enter (calls : list ModesController.call) (i : nat) :
  none_active calls \/ only_active i calls ->
  only_active i (calls ++ [ModesController.CallEnter i]).
Proof.
  intros Hc k. rewrite active_snoc.
  destruct (Nat.eqb_spec i k) as [->|Hne].
  - symmetry. apply Nat.eqb_refl.
  - destruct Hc as [Hc|Hc]; rewrite Hc; [|reflexivity].
    symmetry. apply Nat.eqb_neq. congruence.
Qed.

Lemma none_active_exit (calls : list ModesController.call) (i : nat) :
  none_active calls \/ only_active i calls ->
  none_active (calls ++ [ModesController.CallExit i]).
Proof.
  intros Hc k. rewrite active_snoc.
  destruct (Nat.eqb_spec i k) as [->|Hne]; [reflexivity|].
  destruct Hc as [Hc|Hc]; rewrite Hc; [reflexivity|].
  apply Nat.eqb_neq. congruence.
Qed.

Lemma only_active_enter_other (calls : list ModesController.call) (i : nat) :
  none_active calls -> only_active i (calls ++ [ModesController.CallEnter i]).
Proof. intros Hc. apply only_active_enter. now left. Qed.

Lemma prefix_snoc_cases {A : Type} (p l : list A) (x : A) :
  p `prefix_of` l ++ [x] -> p `prefix_of` l \/ p = l ++ [x].
Proof.
  intros [k Hk]. destruct k as [|y k _] using rev_ind.
  - right. now rewrite app_nil_r in Hk.
  - left. rewrite app_assoc in Hk. apply app_inj_tail in Hk as [-> _].
    now exists k.
Qed.

Lemma never_two_snoc (calls : list ModesController.call)
    (c : ModesController.call) :
  never_two calls -> at_most_one (calls ++ [c]) -> never_two (calls ++ [c]).
Proof.
  intros Hn Hc p Hp. apply prefix_snoc_cases in Hp as [Hp| ->]; auto.
Qed.

Lemma at_most_one_length (calls : list ModesController.call) (n : nat) :
  at_most_one calls -> length (ModesController.active_modes calls n) <= 1.
Proof.
  intros [Hc|[i Hc]].
  - rewrite none_active_modes by exact Hc. cbn. lia.
  - rewrite (only_active_modes _ i) by exact Hc. destruct (i <? n); cbn; lia.
Qed.

Section ControllerInvariant.
Context {M : Type} `{Mode M}.

Import ModesController.

Lemma init_idle (modes : list M) (tl : TrafficLight.t) :
  modes <> [] -> idle (length modes) (init modes tl).
Proof.
  intros Hm. split; [now apply init_well_formed|]. split; [exact none_active_nil|].
  intros p Hp. apply prefix_nil_inv in Hp as ->. left. exact none_active_nil.
Qed.

Lemma step_running (n : nat) (e : event) (w : world M) :
  idle n w \/ running n w ->
  exists w', step e w = Ok w' /\ running n w'.
Proof.
  intros Hw.
  assert (well_formed n w /\
          (none_active (log w) \/ only_active (_i (self w)) (log w)) /\
          never_two (log w)) as (Hwf & Ha & Hn)
    by (destruct Hw as [(? & ? & ?)|(? & ? & ?)]; auto).
  destruct e; cbn [step].
  - destruct (start_ok n w Hwf) as (w' & E & Hwf' & Ei & El).
    exists w'. split; [exact E|]. split; [exact Hwf'|].
    assert (only_active (_i (self w')) (log w')) as Ho
      by (rewrite El, Ei; now apply only_active_enter).
    split; [exact Ho|]. rewrite El in *.
    apply never_two_snoc; [exact Hn|]. right. eauto.
  - destruct (switch_mode_ok n w Hwf) as (w' & E & Hwf' & Ei & El).
    exists w'. split; [exact E|]. split; [exact Hwf'|].
    change [CallExit (_i (self w)); CallEnter (_i (self w'))]
      with ([CallExit (_i (self w))] ++ [CallEnter (_i (self w'))]) in El.
    rewrite app_assoc in El.
    pose proof (none_active_exit _ _ Ha) as Hx.
    assert (only_active (_i (self w')) (log w')) as Ho
      by (rewrite El; now apply only_active_enter_other).
    split; [exact Ho|]. rewrite El in *.
    apply never_two_snoc; [|right; eauto].
    apply never_two_snoc; [exact Hn|]. now left.
Qed.

Lemma exec_running (n : nat) (es : list event) (w : world M) :
  running n w -> exists w', exec es w = Ok w' /\ running n w'.
Proof.
  revert w. induction es as [|e es IH]; intros w Hw; [now exists w|].
  cbn [exec]. destruct (step_running n e w) as (w1 & -> & Hw1); [now right|].
  cbn [mbind result_bind]. now apply IH.
Qed.

Lemma exec_idle (n : nat) (es : list event) (w : world M) :
  idle n w -> exists w', exec es w = Ok w' /\ (idle n w' \/ running n w').
Proof.
  intros Hw. destruct es as [|e es]; [exists w; auto|].
  cbn [exec]. destruct (step_running n e w) as (w1 & -> & Hw1); [now left|].
  cbn [mbind result_bind].
  destruct (exec_running n es w1 Hw1) as (w' & ? & ?). eauto.
Qed.

(** C1. Once [start()] has been called (whatever was asked of the
    controller before and after it), the current mode is the one active
    mode, that is, the one mode that was entered and not left since.  A
    press of the button from there calls [exit()] on the current mode, then
    moves the index on, then calls [enter()] on the mode it reaches, and
    nothing else; the mode reached is then the one active mode, and at no
    moment of the whole history of calls were two modes active. *)
Theorem exactly_one_mode_active (modes : list M) (tl : TrafficLight.t)
    (before after : list event) :
  modes <> [] ->
  exists w w',
    exec (before ++ Start :: after) (init modes tl) = Ok w /\
    active_modes (log w) (length modes) = [_i (self w)] /\
    switch_mode w = Ok w' /\
    _i (self w') = (_i (self w) + 1) mod length modes /\
    log w' = log w ++ [CallExit (_i (self w)); CallEnter (_i (self w'))] /\
    active_modes (log w') (length modes) = [_i (self w')] /\
    (forall p, p `prefix_of` log w' ->
       length (active_modes p (length modes)) <= 1).
Proof.
  intros Hm. set (n := length modes).
  destruct (exec_idle n before _ (init_idle modes tl Hm)) as (w0 & E0 & H0).
  destruct (step_running n Start w0 H0) as (w1 & E1 & H1).
  destruct (exec_running n after w1 H1) as (w & E & Hw).
  destruct (step_running n Press w (or_intror Hw)) as (w' & E' & Hw').
  destruct (switch_mode_ok n w (proj1 Hw)) as (w'' & E'' & _ & Ei & El).
  cbn [step] in E'. rewrite E' in E''. injection E'' as <-.
  exists w, w'. repeat split.
  - rewrite exec_app, E0. cbn [mbind result_bind exec]. rewrite E1. exact E.
  - destruct Hw as ([Hi _] & Ho & _).
    rewrite (only_active_modes _ _ _ Ho).
    now apply Nat.ltb_lt in Hi as ->.
  - exact E'.
  - exact Ei.
  - exact El.
  - destruct Hw' as ([Hi _] & Ho & _).
    rewrite (only_active_modes _ _ _ Ho).
    now apply Nat.ltb_lt in Hi as ->.
  - intros p Hp. apply at_most_one_length. now apply Hw'.
Qed.

End ControllerInvariant.

Lemma exactly_one_mode_active_witness :
  let modes := [FixedMode.mk ALL; FixedMode.mk NONE] in
  exists w w',
    ModesController.exec ([] ++ ModesController.Start :: [ModesController.Press])
      (ModesController.init modes TrafficLight.init) = Ok w /\
    ModesController.active_modes (ModesController.log w) (length modes) =
      [ModesController._i (ModesController.self w)] /\
    ModesController.switch_mode w = Ok w' /\
    ModesController._i (ModesController.self w') =
      (ModesController._i (ModesController.self w) + 1) mod length modes /\
    ModesController.log w' =
      ModesController.log w ++
        [ModesController.CallExit (ModesController._i (ModesController.self w));
         ModesController.CallEnter (ModesController._i (ModesController.self w'))] /\
    ModesController.active_modes (ModesController.log w') (length modes) =
      [ModesController._i (ModesController.self w')] /\
    (forall p, p `prefix_of` ModesController.log w' ->
       length (ModesController.active_modes p (length modes)) <= 1).
Proof.
  apply (exactly_one_mode_active [FixedMode.mk ALL; FixedMode.mk NONE]
           TrafficLight.init [] [ModesController.Press]).
  discriminate.
Defined.

(** The scenario of two fixed modes: [start()] shows [ALL], a press shows
    [NONE], one more press shows [ALL] again. *)
Example two_fixed_modes :
  exists w,
    ModesController.exec
      [ModesController.Start; ModesController.Press; ModesController.Press]
      (ModesController.init [FixedMode.mk ALL; FixedMode.mk NONE] TrafficLight.init)
      = Ok w /\
    TrafficLight.calls (ModesController.traffic_light w) = [ALL; NONE; ALL] /\
    ModesController._i (ModesController.self w) = 0.
Proof. eexists. repeat split. Qed.

Section ControllerCycle.
Context {M : Type} `{Mode M}.

Import ModesController.

Lemma exited_snoc_press (calls : list call) (i i' : nat) :
  exited (calls ++ [CallExit i; CallEnter i']) = exited calls ++ [i].
Proof. unfold exited. now rewrite omap_app. Qed.

Lemma entered_snoc_press (calls : list call) (i i' : nat) :
  entered (calls ++ [CallExit i; CallEnter i']) = entered calls ++ [i'].
Proof. unfold entered. now rewrite omap_app. Qed.

Lemma map_mod_seq (n : nat) : map (fun k => k mod n) (seq 0 n) = seq 0 n.
Proof.
  rewrite <- (map_id (seq 0 n)) at 2. apply map_ext_in.
  intros k Hk. apply in_seq in Hk. apply Nat.mod_small. lia.
Qed.

(** After [start()] and [n] presses of the button, the index is
    [n mod N]; the modes left are those at [0 mod N], ..., [(n-1) mod N], in
    this order, and the modes entered those at [0 mod N], ..., [n mod N]. *)
Lemma presses_from_start (modes : list M) (tl : TrafficLight.t) (n : nat) :
  modes <> [] ->
  exists w,
    exec (Start :: repeat Press n) (init modes tl) = Ok w /\
    well_formed (length modes) w /\
    _i (self w) = n mod length modes /\
    exited (log w) = map (fun k => k mod length modes) (seq 0 n) /\
    entered (log w) = map (fun k => k mod length modes) (seq 0 (S n)).
Proof.
  intros Hm.
  assert (length modes <> 0) as HN by (destruct modes; [congruence|cbn; lia]).
  induction n as [|n IH].
  - cbn [repeat exec step].
    destruct (start_ok _ _ (init_well_formed modes tl Hm)) as (w & E & Hw & Ei & El).
    exists w. rewrite E. cbn [mbind result_bind].
    split; [reflexivity|]. split; [exact Hw|].
    rewrite Ei, El. cbn. rewrite Nat.Div0.mod_0_l. auto.
  - destruct IH as (w & E & Hw & Ei & Ex & En).
    destruct (switch_mode_ok _ w Hw) as (w' & E' & Hw' & Ei' & El').
    exists w'. split.
    + cbn [repeat]. rewrite repeat_cons, app_comm_cons, exec_app, E.
      cbn [mbind result_bind exec step]. now rewrite E'.
    + split; [exact Hw'|].
      assert (_i (self w') = S n mod length modes) as Ei''
        by (rewrite Ei', Ei; now apply mod_succ).
      split; [exact Ei''|].
      rewrite El', exited_snoc_press, entered_snoc_press, Ex, En, Ei, Ei''.
      rewrite !seq_S, !map_app. cbn [map Nat.add]. auto.
Qed.

(** C2. With [N >= 1] modes and the index at 0, [n] presses of the button
    leave the index at [n mod N], which is in [[0, N)]; the [N] first
    presses leave the modes at 0, 1, ..., [N-1], each once and in the order
    of the list, enter those at 1, ..., [N-1] and then 0, and bring the
    index back to 0. *)
Theorem presses_cycle_through_modes (modes : list M) (tl : TrafficLight.t) :
  0 < length modes ->
  (forall n, exists w,
     exec (Start :: repeat Press n) (init modes tl) = Ok w /\
     _i (self w) = n mod length modes /\
     _i (self w) < length modes /\
     length (_modes (self w)) = length modes) /\
  (exists w,
     exec (Start :: repeat Press (length modes)) (init modes tl) = Ok w /\
     _i (self w) = 0 /\
     exited (log w) = seq 0 (length modes) /\
     entered (log w) = 0 :: map (fun k => (k + 1) mod length modes) (seq 0 (length modes)) /\
     NoDup (exited (log w))).
Proof.
  intros HN.
  assert (modes <> []) as Hm by (destruct modes; [cbn in HN; lia | discriminate]).
  split.
  - intros n. destruct (presses_from_start modes tl n Hm) as (w & E & [Hi Hl] & Ei & _).
    exists w. auto.
  - destruct (presses_from_start modes tl (length modes) Hm)
      as (w & E & _ & Ei & Ex & En).
    exists w. split; [exact E|].
    rewrite Nat.Div0.mod_same in Ei. split; [exact Ei|].
    rewrite map_mod_seq in Ex. split; [exact Ex|]. split.
    + rewrite En. cbn [seq map]. rewrite Nat.Div0.mod_0_l. f_equal.
      rewrite <- seq_shift, map_map. apply map_ext. intros k. f_equal. lia.
    + rewrite Ex. apply NoDup_ListNoDup, List.seq_NoDup.
Qed.

End ControllerCycle.

Lemma presses_cycle_through_modes_witness :
  let modes := [FixedMode.mk ALL; FixedMode.mk NONE; FixedMode.mk AMBER] in
  (forall n, exists w,
     ModesController.exec (ModesController.Start :: repeat ModesController.Press n)
       (ModesController.init modes TrafficLight.init) = Ok w /\
     ModesController._i (ModesController.self w) = n mod length modes /\
     ModesController._i (ModesController.self w) < length modes /\
     length (ModesController._modes (ModesController.self w)) = length modes) /\
  (exists w,
     ModesController.exec
       (ModesController.Start :: repeat ModesController.Press (length modes))
       (ModesController.init modes TrafficLight.init) = Ok w /\
     ModesController._i (ModesController.self w) = 0 /\
     ModesController.exited (ModesController.log w) = seq 0 (length modes) /\
     ModesController.entered (ModesController.log w) =
       0 :: map (fun k => (k + 1) mod length modes) (seq 0 (length modes)) /\
     NoDup (ModesController.exited (ModesController.log w))).
Proof.
  apply (presses_cycle_through_modes
           [FixedMode.mk ALL; FixedMode.mk NONE; FixedMode.mk AMBER]
           TrafficLight.init).
  cbn. lia.
Defined.

(* ===================================================================== *)
(** * Properties of [UdpListenerMode] *)

Section Listener.
Import UdpListenerMode.

(** A datagram handled by a live listener either kills it (the empty
    datagram) or leaves it in [recvfrom]. *)
Lemma listener_dead_forever (datagram : list byte) (self : t)
    (tl : TrafficLight.t) (e : exn) :
  _listener_thread self = ListenerDead e ->
  _listener_thread_start datagram self tl = (self, tl).
Proof. intros Hd. unfold _listener_thread_start. now rewrite Hd. Qed.

(** C3, at the empty datagram. [msg[0]] raises [IndexError] on the empty
    datagram, before anything else is done: the iteration of the listener
    does not complete, and the exception, which nothing catches, ends the
    listener thread.  From then on no datagram is handled: a mode that is
    active and receives the empty datagram and then the byte 4 ([RED])
    still shows [AMBER] and has not raised [_on_updated], where the byte 4
    alone makes it show [RED] and raise [_on_updated]. *)
Theorem empty_datagram_ends_listener (self : t) (tl : TrafficLight.t) :
  listener_iteration [] self tl = Raise IndexError /\
  _listener_thread_start [] (with_listener InRecvfrom self) tl =
    (with_listener (ListenerDead IndexError) self, tl) /\
  (forall datagram,
     _listener_thread_start datagram (with_listener (ListenerDead IndexError) self) tl =
       (with_listener (ListenerDead IndexError) self, tl)) /\
  run step [Enter; Recv []; Recv [Byte.x04]] (init main.update_timeout, TrafficLight.init) =
    Some (mk AMBER true main.update_timeout false (ListenerDead IndexError)
            (InWaitTimeout main.update_timeout),
          TrafficLight.set TrafficLight.init AMBER) /\
  run step [Enter; Recv [Byte.x04]] (init main.update_timeout, TrafficLight.init) =
    Some (mk RED true main.update_timeout true InRecvfrom
            (InWaitTimeout main.update_timeout),
          TrafficLight.set (TrafficLight.set TrafficLight.init AMBER) RED).
Proof.
  split; [reflexivity|]. split; [reflexivity|]. split.
  - intros datagram. now apply listener_dead_forever with IndexError.
  - split; reflexivity.
Qed.

End Listener.

Section Reentry.
Import UdpListenerMode.

Lemma valid_cons (b : byte) (rest : list byte) :
  valid (b :: rest) = true <-> (0 <= int_of_byte b <= 7)%Z.
Proof. cbn [valid]. rewrite andb_true_iff, !Z.leb_le. tauto. Qed.

Lemma _update_lights (self : t) (tl : TrafficLight.t) (lights : Lights) :
  _lights (fst (_update self tl lights)) = lights /\
  snd (_update self tl lights) =
    if _is_active self then TrafficLight.set tl lights else tl.
Proof. unfold _update. cbn [_is_active _lights]. now destruct (_is_active self). Qed.

(** In silence, and as long as the fallback is not applied, [_lights]
    stays as it is. *)
Lemma silent_step_lights (e : event) (s s' : t * TrafficLight.t) :
  silent e = true -> falls_back s e = false -> step e s = Some s' ->
  _lights (fst s') = _lights (fst s).
Proof.
  destruct s as [self tl]. intros Hs Hf Hstep.
  destruct e as [|datagram| | |]; cbn [step fst snd] in Hstep.
  - injection Hstep as <-. cbn [fst]. unfold tick.
    now destruct (_update_timeout_thread self) as [[|r]| | |].
  - injection Hstep as <-. unfold _listener_thread_start.
    destruct (_listener_thread self); [|reflexivity].
    destruct datagram as [|b rest]; [reflexivity|].
    rewrite listener_iteration_ignored; [reflexivity|].
    cbn [silent] in Hs. apply negb_true_iff in Hs.
    rewrite <- valid_cons. now rewrite Hs.
  - unfold falls_back in Hf. cbn [fst] in Hf.
    unfold _update_timeout_thread_start in Hstep.
    destruct (_update_timeout_thread self) as [r| | |]; try discriminate Hf.
    + destruct (_on_updated self); [now injection Hstep as <-|].
      destruct r; [now injection Hstep as <-|discriminate].
    + now injection Hstep as <-.
    + destruct (_on_updated self); [now injection Hstep as <-|discriminate].
  - now injection Hstep as <-.
  - now injection Hstep as <-.
Qed.

Lemma silent_run_lights (es : list event) (s s' : t * TrafficLight.t) :
  forallb silent es = true ->
  count_along step falls_back es s = 0 ->
  run step es s = Some s' ->
  _lights (fst s') = _lights (fst s).
Proof.
  revert s. induction es as [|e es IH]; intros s Hs Hc Hr.
  - cbn in Hr. now injection Hr as <-.
  - cbn [forallb] in Hs. apply andb_true_iff in Hs as [Hse Hses].
    cbn [run count_along] in Hr, Hc.
    destruct (step e s) as [s1|] eqn:E; [|discriminate].
    destruct (falls_back s e) eqn:F; [discriminate|].
    rewrite (IH s1 Hses) by (try exact Hr; lia).
    now apply (silent_step_lights e).
Qed.

(** The fallback leaves [_lights] at [AMBER], and in silence it stays
    there. *)
Lemma falls_back_lights (e : event) (s s' : t * TrafficLight.t) :
  falls_back s e = true -> step e s = Some s' -> _lights (fst s') = AMBER.
Proof.
  destruct s as [self tl]. unfold falls_back. cbn [fst].
  destruct e; try discriminate. cbn [step fst snd].
  unfold _update_timeout_thread_start.
  destruct (_update_timeout_thread self); try discriminate.
  intros _. unfold _update. cbn [_is_active _lights].
  destruct (_is_active self); now intros [= <-].
Qed.

Lemma silent_step_amber (e : event) (s s' : t * TrafficLight.t) :
  silent e = true -> step e s = Some s' ->
  _lights (fst s) = AMBER -> _lights (fst s') = AMBER.
Proof.
  intros Hs Hstep Ha. destruct (falls_back s e) eqn:F.
  - now apply (falls_back_lights e s).
  - now rewrite (silent_step_lights e s s' Hs F Hstep).
Qed.

Lemma silent_run_amber (es : list event) (s s' : t * TrafficLight.t) :
  forallb silent es = true -> run step es s = Some s' ->
  _lights (fst s) = AMBER -> _lights (fst s') = AMBER.
Proof.
  revert s. induction es as [|e es IH]; intros s Hs Hr Ha.
  - cbn in Hr. now injection Hr as <-.
  - cbn [forallb] in Hs. apply andb_true_iff in Hs as [Hse Hses].
    cbn [run] in Hr. destruct (step e s) as [s1|] eqn:E; [|discriminate].
    apply (IH s1 Hses Hr). now apply (silent_step_amber e s).
Qed.

Lemma silent_run_after_fallback (es : list event) (s s' : t * TrafficLight.t) :
  forallb silent es = true ->
  count_along step falls_back es s <> 0 ->
  run step es s = Some s' ->
  _lights (fst s') = AMBER.
Proof.
  revert s. induction es as [|e es IH]; intros s Hs Hc Hr.
  - cbn in Hc. congruence.
  - cbn [forallb] in Hs. apply andb_true_iff in Hs as [Hse Hses].
    cbn [run count_along] in Hr, Hc.
    destruct (step e s) as [s1|] eqn:E; [|discriminate].
    destruct (falls_back s e) eqn:F.
    + apply (silent_run_amber es s1 s' Hses Hr).
      now apply (falls_back_lights e s).
    + apply (IH s1 Hses); [lia | exact Hr].
Qed.

(** C5, as amended. [_update] stores the new state in [_lights] whether
    the mode is active or not, and calls [set] exactly when it is active;
    [enter()] writes the current [_lights] to the traffic light at once and
    makes the mode active.  So when a datagram selected [l] and no other
    valid datagram arrived since then: if the timeout thread did not apply
    its fallback meanwhile, [_lights] is [l] and [enter()] writes [l]; if it
    did, [_lights] is [AMBER] and [enter()] writes [AMBER]. *)
Theorem enter_writes_last_known (self : t) (tl : TrafficLight.t) :
  (forall lights,
     _lights (fst (_update self tl lights)) = lights /\
     snd (_update self tl lights) =
       if _is_active self then TrafficLight.set tl lights else tl) /\
  snd (enter self tl) = TrafficLight.set tl (_lights self) /\
  _is_active (fst (enter self tl)) = true /\
  (forall b rest l es s',
     _listener_thread self = InRecvfrom ->
     Lights_call (int_of_byte b) = Ok l ->
     forallb silent es = true ->
     count_along step falls_back es (_listener_thread_start (b :: rest) self tl) = 0 ->
     run step es (_listener_thread_start (b :: rest) self tl) = Some s' ->
     _lights (fst s') = l /\
     snd (enter (fst s') (snd s')) = TrafficLight.set (snd s') l) /\
  (forall b rest l es s',
     _listener_thread self = InRecvfrom ->
     Lights_call (int_of_byte b) = Ok l ->
     forallb silent es = true ->
     count_along step falls_back es (_listener_thread_start (b :: rest) self tl) <> 0 ->
     run step es (_listener_thread_start (b :: rest) self tl) = Some s' ->
     _lights (fst s') = AMBER /\
     snd (enter (fst s') (snd s')) = TrafficLight.set (snd s') AMBER).
Proof.
  split; [intros lights; apply _update_lights|].
  split; [reflexivity|]. split; [reflexivity|]. split.
  - intros b rest l es s' Hl Hb Hs Hc Hr.
    assert (_lights (fst s') = l) as E.
    { rewrite (silent_run_lights es _ s' Hs Hc Hr).
      unfold _listener_thread_start. rewrite Hl.
      pose proof (Lights_call_Ok _ _ Hb) as Hv.
      destruct (listener_iteration_valid b rest self tl) as (l' & Hv' & ->).
      { rewrite <- Hv. apply value_range. }
      assert (l' = l) as -> by (apply value_inj; congruence).
      cbn [fst _on_updated_assign _lights]. apply _update_lights. }
    split; [exact E|]. cbn [enter snd]. now rewrite E.
  - intros b rest l es s' Hl Hb Hs Hc Hr.
    pose proof (silent_run_after_fallback es _ s' Hs Hc Hr) as E.
    split; [exact E|]. cbn [enter snd]. now rewrite E.
Qed.

(** C5, as stated, fails: the mode, never entered, receives the byte 5
    ([RED_GREEN]); the timeout thread takes note of it, then sees its
    bounded wait (here of 2 ticks) elapse and applies the fallback; the
    last value received is still [RED_GREEN], but [enter()] writes
    [AMBER]. *)
Lemma enter_after_fallback_writes_AMBER :
  let es := [Recv [Byte.x05]; Timeout; Timeout; Tick; Tick; Timeout; Timeout] in
  exists s,
    run step es (init 2, TrafficLight.init) = Some s /\
    last_selected es = Some RED_GREEN /\
    _is_active (fst s) = false /\
    TrafficLight.calls (snd s) = [] /\
    TrafficLight.calls (snd (enter (fst s) (snd s))) = [AMBER] /\
    snd (enter (fst s) (snd s)) <> TrafficLight.set (snd s) RED_GREEN.
Proof.
  eexists. split; [reflexivity|]. split; [reflexivity|]. split; [reflexivity|].
  split; [reflexivity|]. split; [reflexivity|]. discriminate.
Qed.

End Reentry.

(** The byte 5 ([RED_GREEN]) is received by a mode that was never
    entered.  With the timeout of the program, after two steps of the
    timeout thread, a tick and an [exit()], [enter()] writes [RED_GREEN].
    With a timeout of 2 ticks, once the wait has elapsed and the fallback
    was applied, [enter()] writes [AMBER]. *)
Lemma enter_writes_last_known_witness :
  (exists s',
     run UdpListenerMode.step
       [UdpListenerMode.Recv [Byte.x05]; UdpListenerMode.Timeout;
        UdpListenerMode.Timeout; UdpListenerMode.Tick; UdpListenerMode.Exit]
       (UdpListenerMode.init main.update_timeout, TrafficLight.init) = Some s' /\
     UdpListenerMode._lights (fst s') = RED_GREEN /\
     snd (UdpListenerMode.enter (fst s') (snd s')) =
       TrafficLight.set (snd s') RED_GREEN) /\
  (exists s',
     run UdpListenerMode.step
       [UdpListenerMode.Recv [Byte.x05]; UdpListenerMode.Timeout;
        UdpListenerMode.Timeout; UdpListenerMode.Tick; UdpListenerMode.Tick;
        UdpListenerMode.Timeout; UdpListenerMode.Timeout; UdpListenerMode.Tick]
       (UdpListenerMode.init 2, TrafficLight.init) = Some s' /\
     UdpListenerMode._lights (fst s') = AMBER /\
     snd (UdpListenerMode.enter (fst s') (snd s')) =
       TrafficLight.set (snd s') AMBER).
Proof.
  split.
  - destruct (enter_writes_last_known
                (UdpListenerMode.init main.update_timeout) TrafficLight.init)
      as (_ & _ & _ & Hkept & _).
    eexists. split; [reflexivity|].
    exact (Hkept Byte.x05 [] RED_GREEN
             [UdpListenerMode.Timeout; UdpListenerMode.Timeout;
              UdpListenerMode.Tick; UdpListenerMode.Exit]
             _ eq_refl eq_refl eq_refl eq_refl eq_refl).
  - destruct (enter_writes_last_known (UdpListenerMode.init 2) TrafficLight.init)
      as (_ & _ & _ & _ & Hfell).
    eexists. split; [reflexivity|].
    refine (Hfell Byte.x05 [] RED_GREEN
              [UdpListenerMode.Timeout; UdpListenerMode.Timeout;
               UdpListenerMode.Tick; UdpListenerMode.Tick;
               UdpListenerMode.Timeout; UdpListenerMode.Timeout;
               UdpListenerMode.Tick]
              _ eq_refl eq_refl eq_refl _ eq_refl).
    cbn. discriminate.
Defined.

Section Watchdog.
Import UdpListenerMode.

(** What the listener leaves alone, whatever the datagram. *)
Lemma listener_frame (datagram : list byte) (self : t) (tl : TrafficLight.t) :
  let s := _listener_thread_start datagram self tl in
  _update_timeout_thread (fst s) = _update_timeout_thread self /\
  _update_timeout (fst s) = _update_timeout self /\
  _is_active (fst s) = _is_active self.
Proof.
  cbv zeta. unfold _listener_thread_start.
  destruct (_listener_thread self); [|auto].
  destruct datagram as [|b rest]; [cbn; auto|].
  destruct (valid (b :: rest)) eqn:V.
  - apply valid_cons in V.
    destruct (listener_iteration_valid b rest self tl V) as (l & _ & ->).
    unfold _update. cbn [_is_active _lights].
    destruct (_is_active self); cbn; auto.
  - rewrite listener_iteration_ignored; [cbn; auto|].
    rewrite <- valid_cons. now rewrite V.
Qed.

(** In silence the listener leaves the event as it is, too. *)
Lemma listener_silent (datagram : list byte) (self : t) (tl : TrafficLight.t) :
  valid datagram = false ->
  _on_updated (fst (_listener_thread_start datagram self tl)) = _on_updated self.
Proof.
  intros V. unfold _listener_thread_start.
  destruct (_listener_thread self); [|reflexivity].
  destruct datagram as [|b rest]; [reflexivity|].
  rewrite listener_iteration_ignored; [reflexivity|].
  rewrite <- valid_cons. now rewrite V.
Qed.

Lemma step_budget (e : event) (s s' : t * TrafficLight.t) (n : nat) :
  silent e = true -> step e s = Some s' ->
  within n (budget (fst s)) ->
  within (n - (if is_tick e then 1 else 0)) (budget (fst s')).
Proof.
  destruct s as [self tl]. intros Hs Hstep.
  destruct e as [|datagram| | |]; cbn [step fst snd is_tick] in *.
  - injection Hstep as <-. cbn [fst]. unfold within, budget, tick.
    destruct self as [l a T f lp [[|r]| | |]]; destruct f; cbn; lia.
  - injection Hstep as <-. cbn [silent] in Hs. apply negb_true_iff in Hs.
    pose proof (listener_frame datagram self tl) as (Hp & HT & _).
    pose proof (listener_silent datagram self tl Hs) as Hf.
    unfold budget. rewrite Hp, HT, Hf. now rewrite Nat.sub_0_r.
  - unfold _update_timeout_thread_start in Hstep. unfold within, budget.
    destruct self as [l a T f lp [r| | |]]; cbn in Hstep.
    + destruct f; [injection Hstep as <-; cbn; lia|].
      destruct r; [injection Hstep as <-; now cbn | discriminate].
    + injection Hstep as <-. destruct f; cbn; lia.
    + destruct a; injection Hstep as <-; destruct f; cbn; auto; lia.
    + destruct f; [injection Hstep as <-; cbn; lia | discriminate].
  - injection Hstep as <-. unfold budget. cbn. now rewrite Nat.sub_0_r.
  - injection Hstep as <-. unfold budget. cbn. now rewrite Nat.sub_0_r.
Qed.

Lemma elapses_budget (e : event) (s : t * TrafficLight.t) :
  elapses s e = true -> budget (fst s) = Some 0.
Proof.
  unfold elapses, budget. destruct e; try discriminate.
  destruct (_update_timeout_thread (fst s)) as [[|r]| | |]; try discriminate.
  now intros ->%negb_true_iff.
Qed.

Lemma elapses_step (e : event) (s : t * TrafficLight.t) :
  elapses s e = true ->
  exists s', step e s = Some s' /\ budget (fst s') = None /\
    _update_timeout_thread (fst s') = AtUpdate.
Proof.
  destruct s as [self tl]. unfold elapses. destruct e; try discriminate.
  cbn [fst step snd]. unfold _update_timeout_thread_start, budget.
  destruct self as [l a T f lp [[|r]| | |]]; cbn; try discriminate.
  intros ->%negb_true_iff. eexists. split; [reflexivity|]. now cbn.
Qed.

(** With more ticks to go than the run has, the bounded wait does not
    elapse during a silent run. *)
Lemma silent_run_no_elapse (es : list event) (s : t * TrafficLight.t) :
  forallb silent es = true ->
  within (S (ticks es)) (budget (fst s)) ->
  count_along step elapses es s = 0.
Proof.
  revert s. induction es as [|e es IH]; intros s Hs Hb; [reflexivity|].
  cbn [forallb] in Hs. apply andb_true_iff in Hs as [Hse Hses].
  cbn [count_along].
  destruct (elapses s e) eqn:El.
  - apply elapses_budget in El. rewrite El in Hb. cbn in Hb. lia.
  - destruct (step e s) as [s1|] eqn:E; [|reflexivity].
    rewrite IH; [reflexivity | exact Hses |].
    pose proof (step_budget e s s1 _ Hse E Hb) as Hb1.
    unfold ticks in *. cbn [List.filter] in Hb1.
    destruct (is_tick e); cbn [length] in Hb1.
    + now replace (S (S (length (List.filter is_tick es))) - 1)
        with (S (length (List.filter is_tick es))) in Hb1 by lia.
    + now rewrite Nat.sub_0_r in Hb1.
Qed.

(** In silence the bounded wait elapses at most once. *)
Lemma silent_run_elapses_once (es : list event) (s : t * TrafficLight.t) :
  forallb silent es = true -> count_along step elapses es s <= 1.
Proof.
  revert s. induction es as [|e es IH]; intros s Hs; [cbn; lia|].
  cbn [forallb] in Hs. apply andb_true_iff in Hs as [Hse Hses].
  cbn [count_along].
  destruct (elapses s e) eqn:El.
  - destruct (elapses_step e s El) as (s1 & -> & Hb & _).
    rewrite silent_run_no_elapse; [lia | exact Hses |]. now rewrite Hb.
  - destruct (step e s) as [s1|]; [|lia]. specialize (IH s1 Hses). lia.
Qed.

(** The fallback is applied only after the bounded wait elapsed. *)
Lemma step_pending (e : event) (s s' : t * TrafficLight.t) :
  step e s = Some s' ->
  (if falls_back s e then 1 else 0) + pending (fst s') <=
  (if elapses s e then 1 else 0) + pending (fst s).
Proof.
  destruct s as [self tl]. intros Hstep.
  destruct e as [|datagram| | |]; cbn [step fst snd] in Hstep.
  - injection Hstep as <-. unfold pending, tick, falls_back, elapses. cbn [fst].
    destruct self as [l a T f lp [[|r]| | |]]; cbn; lia.
  - injection Hstep as <-.
    pose proof (listener_frame datagram self tl) as (Hp & _).
    unfold pending, falls_back, elapses. cbn [fst] in *. rewrite Hp. lia.
  - unfold _update_timeout_thread_start in Hstep.
    unfold pending, falls_back, elapses. cbn [fst].
    destruct self as [l a T f lp [r| | |]]; cbn in *.
    + destruct f; [injection Hstep as <-; destruct r; cbn; lia|].
      destruct r; [injection Hstep as <-; cbn; lia | discriminate].
    + injection Hstep as <-. cbn. lia.
    + destruct a; injection Hstep as <-; cbn; lia.
    + destruct f; [injection Hstep as <-; cbn; lia | discriminate].
  - injection Hstep as <-. unfold pending, falls_back, elapses. cbn. lia.
  - injection Hstep as <-. unfold pending, falls_back, elapses. cbn. lia.
Qed.

Lemma falls_back_after_elapse (es : list event) (s : t * TrafficLight.t) :
  count_along step falls_back es s <=
  count_along step elapses es s + pending (fst s).
Proof.
  revert s. induction es as [|e es IH]; intros s; [cbn; lia|].
  cbn [count_along]. destruct (step e s) as [s1|] eqn:E.
  - pose proof (step_pending e s s1 E). specialize (IH s1). lia.
  - destruct s as [self tl].
    assert (falls_back (self, tl) e = false) as ->; [|lia].
    unfold falls_back. destruct e; try reflexivity. cbn [fst step snd] in *.
    unfold _update_timeout_thread_start in E.
    destruct (_update_timeout_thread self); try reflexivity.
    now destruct (_update self tl AMBER).
Qed.

End Watchdog.

Section WatchdogFallback.
Import UdpListenerMode.

Lemma ticks_blocked (n : nat) (self : t) (tl : TrafficLight.t) :
  _update_timeout_thread self = InWait ->
  run step (repeat Tick n) (self, tl) = Some (self, tl).
Proof.
  intros Hp. induction n as [|n IH]; [reflexivity|].
  cbn [repeat run step fst snd]. unfold tick. rewrite Hp. exact IH.
Qed.

(** X17. When the bounded wait of the timeout thread elapses with the
    event clear, the thread runs [_update(Lights.AMBER)] once ([_lights]
    becomes [AMBER], and [set(AMBER)] is called exactly when the mode is
    active) and then sits in the unbounded [wait()]: it cannot be scheduled,
    and no number of ticks changes anything.  So in silence (any events but
    the arrival of a valid datagram) the bounded wait elapses at most once,
    and the fallback is applied at most once unless one was already pending
    (the wait had elapsed, [_update] had not run yet) when the silence
    began.  A valid datagram received during the unbounded wait sets
    [_lights], and the thread then goes back to a bounded wait of the full
    timeout with the event cleared; and from a moment at which the event is
    raised, the bounded wait cannot elapse before as many ticks of silence
    as the timeout have passed, and no fallback is applied before that
    unless one was already pending. *)
Theorem fallback_once_per_silence (self : t) (tl : TrafficLight.t)
    (es : list event) :
  (_update_timeout_thread self = InWaitTimeout 0 ->
   _on_updated self = false ->
   exists s,
     run step [Timeout; Timeout] (self, tl) = Some s /\
     count_along step elapses [Timeout; Timeout] (self, tl) = 1 /\
     count_along step falls_back [Timeout; Timeout] (self, tl) = 1 /\
     _lights (fst s) = AMBER /\
     TrafficLight.calls (snd s) =
       TrafficLight.calls tl ++ (if _is_active self then [AMBER] else []) /\
     _update_timeout_thread (fst s) = InWait /\
     _on_updated (fst s) = false /\
     step Timeout s = None /\
     (forall n, run step (repeat Tick n) s = Some s)) /\
  (forallb silent es = true ->
   count_along step elapses es (self, tl) <= 1 /\
   (_update_timeout_thread self <> AtUpdate ->
    count_along step falls_back es (self, tl) <= 1)) /\
  (forall b rest l,
     _update_timeout_thread self = InWait ->
     _listener_thread self = InRecvfrom ->
     Lights_call (int_of_byte b) = Ok l ->
     exists s,
       run step [Recv (b :: rest); Timeout; Timeout; Timeout] (self, tl) = Some s /\
       _lights (fst s) = l /\
       _on_updated (fst s) = false /\
       _update_timeout_thread (fst s) = InWaitTimeout (_update_timeout self)) /\
  (_on_updated self = true ->
   forallb silent es = true ->
   ticks es < _update_timeout self ->
   count_along step elapses es (self, tl) = 0 /\
   (_update_timeout_thread self <> AtUpdate ->
    count_along step falls_back es (self, tl) = 0)).
Proof.
  split; [|split; [|split]].
  - intros Hp Hf. destruct self as [l a T f lp p]. cbn in Hp, Hf. subst p f.
    exists (mk AMBER a T false lp InWait,
            if a then TrafficLight.set tl AMBER else tl).
    split; [now destruct a|]. split; [now destruct a|].
    split; [now destruct a|]. split; [reflexivity|].
    split; [destruct a; cbn; [reflexivity | now rewrite app_nil_r]|].
    split; [reflexivity|]. split; [reflexivity|]. split; [reflexivity|].
    intros n. now apply ticks_blocked.
  - intros Hs. pose proof (silent_run_elapses_once es (self, tl) Hs) as He.
    split; [exact He|]. intros Hp.
    pose proof (falls_back_after_elapse es (self, tl)) as Hfb.
    assert (pending self = 0) as Hz
      by (unfold pending; now destruct (_update_timeout_thread self)).
    cbn [fst] in Hfb. lia.
  - intros b rest l Hp Hl Hb.
    pose proof (Lights_call_Ok _ _ Hb) as Hv.
    destruct (listener_iteration_valid b rest self tl) as (l' & Hv' & Hit).
    { rewrite <- Hv. apply value_range. }
    assert (l' = l) as -> by (apply value_inj; congruence).
    cbn [run step fst snd]. unfold _listener_thread_start. rewrite Hl, Hit.
    destruct self as [l0 a T f lp p]. cbn in Hp, Hl. subst p lp.
    unfold _update. cbn [_is_active _lights].
    destruct a; cbn; eexists; repeat split.
  - intros Hf Hs Ht.
    assert (count_along step elapses es (self, tl) = 0) as He.
    { apply silent_run_no_elapse; [exact Hs|].
      cbn [fst]. unfold budget. rewrite Hf. cbn. lia. }
    split; [exact He|]. intros Hp.
    pose proof (falls_back_after_elapse es (self, tl)) as Hfb.
    assert (pending self = 0) as Hz
      by (unfold pending; now destruct (_update_timeout_thread self)).
    cbn [fst] in Hfb. lia.
Qed.

End WatchdogFallback.

(* ===================================================================== *)
(** * Properties of [SequenceMode] *)

Section Scheduler.
Context {I : Type} `{Iterator I (Lights * nat)}.
Import SequenceMode.

(** Outside [wait()] the thread does not depend on the event. *)
Lemma thread_ignores_flag (b : bool) (s : t I * TrafficLight.t) :
  _thread (fst s) <> InWait ->
  step Thread (with_flag b s) = with_flag b <$> step Thread s.
Proof.
  destruct s as [[f it p] tl]. cbn [fst _thread]. intros Hp.
  unfold with_flag. cbn [step fst snd _thread _lights_intervals_iterator].
  unfold _thread_start. cbn [_thread _on_activated _lights_intervals_iterator].
  destruct p as [| |[|r]|e]; try reflexivity; [congruence|].
  now destruct (next it) as [[[lights interval]|e] it'].
Qed.

Lemma tick_ignores_flag (b : bool) (s : t I * TrafficLight.t) :
  step Tick (with_flag b s) = with_flag b <$> step Tick s.
Proof.
  destruct s as [[f it p] tl]. unfold with_flag. cbn [step fst snd].
  unfold tick. cbn [_thread _on_activated _lights_intervals_iterator].
  now destruct p as [| |[|r]|e].
Qed.

(** A pause runs in full: until its ticks have passed, whatever [enter()]
    and [exit()] are called, the thread is in the same [sleep], and has
    neither called [set] nor touched the iterator. *)
Lemma pause_in_full (es : list event) (s s' : t I * TrafficLight.t) (r : nat) :
  _thread (fst s) = InSleep r ->
  run step es s = Some s' ->
  elapsed es < r ->
  _thread (fst s') = InSleep (r - elapsed es) /\
  _lights_intervals_iterator (fst s') = _lights_intervals_iterator (fst s) /\
  snd s' = snd s.
Proof.
  revert s r. induction es as [|e es IH]; intros [[f it p] tl] r Hp Hr Ht.
  - cbn in Hr. injection Hr as <-. cbn in *. now rewrite Nat.sub_0_r.
  - cbn [fst _thread] in Hp. subst p. cbn [run] in Hr.
    unfold elapsed in *. cbn [List.filter] in Ht |- *.
    destruct e; cbn [is_tick length step fst snd] in *.
    + destruct r as [|r]; [lia|]. unfold tick in Hr. cbn [_thread] in Hr.
      apply IH with (r := r) in Hr; [|reflexivity|lia]. exact Hr.
    + unfold _thread_start in Hr. cbn [_thread] in Hr.
      destruct r; [lia | discriminate].
    + apply IH with (r := r) in Hr; [exact Hr | reflexivity | exact Ht].
    + apply IH with (r := r) in Hr; [exact Hr | reflexivity | exact Ht].
Qed.

(** Between two reads of the event the thread applies at most one step. *)
Lemma step_credit (e : event) (s s' : t I * TrafficLight.t) :
  step e s = Some s' -> reads_flag s e = false ->
  length (TrafficLight.calls (snd s')) + credit (fst s') <=
  length (TrafficLight.calls (snd s)) + credit (fst s).
Proof.
  destruct s as [[f it p] tl]. intros Hstep Hr.
  destruct e; cbn [step fst snd] in Hstep.
  - injection Hstep as <-. unfold tick, credit. cbn.
    destruct p as [| |[|r]|e]; cbn; lia.
  - unfold _thread_start in Hstep. unfold reads_flag in Hr. cbn in Hstep, Hr.
    destruct p as [| |[|r]|e]; try discriminate.
    + destruct (next it) as [[[lights interval]|e] it'];
        injection Hstep as <-; unfold credit; cbn; rewrite ?length_app; cbn; lia.
    + injection Hstep as <-. unfold credit. cbn. lia.
  - injection Hstep as <-. unfold credit. cbn. lia.
  - injection Hstep as <-. unfold credit. cbn. lia.
Qed.

Lemma run_credit (es : list event) (s s' : t I * TrafficLight.t) :
  run step es s = Some s' ->
  count_along step reads_flag es s = 0 ->
  length (TrafficLight.calls (snd s')) <=
  length (TrafficLight.calls (snd s)) + credit (fst s).
Proof.
  revert s. induction es as [|e es IH]; intros s Hr Hc.
  - cbn in Hr. injection Hr as <-. lia.
  - cbn [run count_along] in Hr, Hc.
    destruct (step e s) as [s1|] eqn:E; [|discriminate].
    destruct (reads_flag s e) eqn:R; [discriminate|].
    specialize (IH s1 Hr ltac:(lia)).
    pose proof (step_credit e s s1 E R).
    assert (credit (fst s1) <= 1) by (unfold credit; destruct (_thread (fst s1)); lia).
    lia.
Qed.

(** While the event is clear and [enter()] is not called, the thread does
    not get past [wait()]. *)
Lemma inactive_no_read (es : list event) (s s' : t I * TrafficLight.t) :
  _on_activated (fst s) = false ->
  forallb (fun e => negb (is_enter e)) es = true ->
  run step es s = Some s' ->
  count_along step reads_flag es s = 0.
Proof.
  revert s. induction es as [|e es IH]; intros s Hf He Hr; [reflexivity|].
  cbn [forallb] in He. apply andb_true_iff in He as [He Hes].
  cbn [run count_along] in Hr |- *.
  destruct (step e s) as [s1|] eqn:E; [|discriminate].
  destruct s as [[f it p] tl]. cbn [fst _on_activated] in Hf. subst f.
  assert (reads_flag (mk false it p, tl) e = false /\
          _on_activated (fst s1) = false) as [-> Hf1].
  { destruct e; cbn [step fst snd is_enter negb] in E, He; try discriminate.
    - injection E as <-. split; [reflexivity|]. unfold tick. cbn.
      now destruct p as [| |[|r]|e].
    - unfold _thread_start in E. unfold reads_flag. cbn in E |- *.
      destruct p as [| |[|r]|e]; try discriminate.
      + destruct (next it) as [[[lights interval]|e] it'];
          injection E as <-; auto.
      + injection E as <-. auto.
    - injection E as <-. auto. }
  now rewrite (IH s1 Hf1 Hes Hr).
Qed.

End Scheduler.

Lemma longest_bound (l : list (Lights * nat)) (x : Lights * nat) :
  x ∈ l -> snd x <= longest l.
Proof.
  intros Hx. unfold longest.
  assert (List.Forall (fun k => k <= list_max (map snd l)) (map snd l)) as Hall
    by (apply list_max_le; lia).
  rewrite List.Forall_forall in Hall. apply Hall, in_map.
  now apply list_elem_of_In.
Qed.

(** [next] returns an item of the list, and leaves the list as it is. *)
Lemma looped_sequence_next_item {A : Type} (g g' : looped_sequence.t A)
    (r : result A) :
  looped_sequence.next g = (r, g') ->
  looped_sequence.l g' = looped_sequence.l g /\
  forall x, r = Ok x -> x ∈ looped_sequence.l g.
Proof.
  assert (forall i, looped_sequence.yield_at (looped_sequence.l g) i = (r, g') ->
            looped_sequence.l g' = looped_sequence.l g /\
            forall x, r = Ok x -> x ∈ looped_sequence.l g) as Hy.
  { intros i. unfold looped_sequence.yield_at, getitem.
    destruct (looped_sequence.l g !! i) as [a|] eqn:E; intros [= <- <-].
    - split; [reflexivity|]. intros x [= <-]. now apply list_elem_of_lookup_2 in E.
    - split; [reflexivity|]. discriminate. }
  unfold looped_sequence.next. destruct (looped_sequence.at_ g) as [|i|].
  - apply Hy.
  - destruct (py_mod _ _) as [i'|e]; [apply Hy|].
    intros [= <- <-]. split; [reflexivity | discriminate].
  - intros [= <- <-]. split; [reflexivity | discriminate].
Qed.

Section SchedulerBound.
Import SequenceMode.

Lemma step_paced (l0 : list (Lights * nat)) (e : event)
    (s s' : t (looped_sequence.t (Lights * nat)) * TrafficLight.t) :
  paced l0 s -> step e s = Some s' -> paced l0 s'.
Proof.
  destruct s as [[f it p] tl]. intros [Hl Hp] Hstep. cbn [fst] in *.
  cbn [_lights_intervals_iterator _thread] in *.
  destruct e; cbn [step fst snd] in Hstep.
  - injection Hstep as <-. unfold tick. cbn [_thread].
    destruct p as [| |[|r]|e]; (split; [exact Hl|]); cbn [fst _thread]; auto.
    intros r' [= <-]. specialize (Hp (S r) eq_refl). lia.
  - unfold _thread_start in Hstep. cbn in Hstep.
    destruct p as [| |[|r]|e]; try discriminate.
    + destruct f; [|discriminate]. injection Hstep as <-. split; cbn; auto.
      discriminate.
    + unfold next, looped_sequence_Iterator in Hstep.
      destruct (looped_sequence.next it) as [res it'] eqn:E.
      apply looped_sequence_next_item in E as [El Ex].
      destruct res as [[lights interval]|x]; injection Hstep as <-; split; cbn.
      * congruence.
      * intros r [= <-]. specialize (Ex _ eq_refl). rewrite Hl in Ex.
        apply (longest_bound l0 (lights, interval) Ex).
      * congruence.
      * discriminate.
    + injection Hstep as <-. split; cbn; auto. discriminate.
  - injection Hstep as <-. split; cbn; auto.
  - injection Hstep as <-. split; cbn; auto.
Qed.

Lemma run_paced (l0 : list (Lights * nat)) (es : list event)
    (s s' : t (looped_sequence.t (Lights * nat)) * TrafficLight.t) :
  paced l0 s -> run step es s = Some s' -> paced l0 s'.
Proof.
  revert s. induction es as [|e es IH]; intros s Hs Hr.
  - cbn in Hr. now injection Hr as <-.
  - cbn [run] in Hr. destruct (step e s) as [s1|] eqn:E; [|discriminate].
    apply (IH s1); [|exact Hr]. now apply (step_paced l0 e s).
Qed.

End SchedulerBound.

Section SchedulerPause.
Context {I : Type} `{Iterator I (Lights * nat)}.
Import SequenceMode.

Lemma run_app {S E : Type} (f : E -> S -> option S) (es1 es2 : list E) (s : S) :
  run f (es1 ++ es2) s =
    match run f es1 s with
    | Some s1 => run f es2 s1
    | None => None
    end.
Proof.
  revert s. induction es1 as [|e es1 IH]; intros s; [reflexivity|].
  cbn [app run]. destruct (f e s); [apply IH | reflexivity].
Qed.

Lemma sleep_to_the_end (f : bool) (it : I) (tl : TrafficLight.t) (r : nat) :
  run step (repeat Tick r) (mk f it (InSleep r), tl) =
    Some (mk f it (InSleep 0), tl).
Proof.
  induction r as [|r IH]; [reflexivity|].
  cbn [repeat run step fst snd]. unfold tick. cbn [_thread]. exact IH.
Qed.

(** [exit()] in the middle of a pause: the thread sleeps its [r] ticks to
    the end, goes back to [wait()], and blocks there. *)
Lemma exit_in_pause (f : bool) (it : I) (tl : TrafficLight.t) (r : nat) :
  run step (Exit :: repeat Tick r ++ [Thread]) (mk f it (InSleep r), tl) =
    Some (mk false it InWait, tl) /\
  step Thread (mk false it InWait, tl) = None.
Proof.
  split; [|reflexivity].
  cbn [run step fst snd]. unfold SequenceMode.exit.
  cbn [_lights_intervals_iterator _thread].
  rewrite run_app, sleep_to_the_end. reflexivity.
Qed.

End SchedulerPause.

Section SchedulerClaim.
Context {I : Type} `{Iterator I (Lights * nat)}.
Import SequenceMode.

(** C8. The thread of a [SequenceMode] reads [_on_activated] only in
    [wait()], between two steps: a tick of its pause, and any step it takes
    outside [wait()], go the same way whatever the event is set to.  A pause
    of [r] ticks runs in full: before [r] ticks have passed, whatever
    [enter()] and [exit()] are called, the thread is still in that [sleep]
    and has changed nothing; after [exit()] and the [r] ticks it returns to
    [wait()] and blocks.  Between two reads of the event the thread applies
    at most one step, so after [exit()], and as long as [enter()] is not
    called, at most one more step is applied, and none unless the thread was
    already past [wait()].  Over [looped_sequence(l)], no pause is longer
    than the longest duration of [l]. *)
Theorem pause_is_not_interruptible (s : t I * TrafficLight.t)
    (es : list event) :
  (forall b, step Tick (with_flag b s) = with_flag b <$> step Tick s) /\
  (forall b, _thread (fst s) <> InWait ->
     step Thread (with_flag b s) = with_flag b <$> step Thread s) /\
  (forall r s',
     _thread (fst s) = InSleep r ->
     run step es s = Some s' ->
     elapsed es < r ->
     _thread (fst s') = InSleep (r - elapsed es) /\
     _lights_intervals_iterator (fst s') = _lights_intervals_iterator (fst s) /\
     snd s' = snd s) /\
  (forall r,
     _thread (fst s) = InSleep r ->
     run step (Exit :: repeat Tick r ++ [Thread]) s =
       Some (mk false (_lights_intervals_iterator (fst s)) InWait, snd s) /\
     step Thread (mk false (_lights_intervals_iterator (fst s)) InWait, snd s) = None) /\
  (forall s',
     run step es s = Some s' ->
     count_along step reads_flag es s = 0 ->
     length (TrafficLight.calls (snd s')) <=
       length (TrafficLight.calls (snd s)) + credit (fst s) /\
     credit (fst s) <= 1) /\
  (forall s',
     forallb (fun e => negb (is_enter e)) es = true ->
     run step (Exit :: es) s = Some s' ->
     length (TrafficLight.calls (snd s')) <=
       length (TrafficLight.calls (snd s)) + credit (fst s)) /\
  (forall l tl es' s' r,
     run step es' (init (looped_sequence.call l), tl) = Some s' ->
     _thread (fst s') = InSleep r ->
     r <= longest l).
Proof.
  split; [intros b; apply tick_ignores_flag|].
  split; [intros b Hp; now apply thread_ignores_flag|].
  split; [intros r s' Hp Hr Ht; now apply (pause_in_full es s s' r)|].
  split.
  { intros r Hp. destruct s as [[f it p] tl]. cbn [fst snd _thread] in *.
    subst p. apply exit_in_pause. }
  split.
  { intros s' Hr Hc. split; [now apply (run_credit es)|].
    unfold credit. destruct (_thread (fst s)); lia. }
  split.
  { intros s' He Hr. destruct s as [[f it p] tl].
    cbn [run step fst snd] in Hr. unfold SequenceMode.exit in Hr.
    cbn [_lights_intervals_iterator _thread] in Hr.
    pose proof (inactive_no_read es (mk false it p, tl) s' eq_refl He Hr) as Hc.
    apply (run_credit es _ s' Hr) in Hc. exact Hc. }
  intros l tl es' s' r Hr Hp.
  assert (paced l (init (looped_sequence.call l), tl)) as H0
    by (split; [reflexivity | discriminate]).
  apply (run_paced l es' _ s' H0 Hr). exact Hp.
Qed.

End SchedulerClaim.

(** The traffic cycle in its first pause ([RED], 20 ticks), left and entered
    again 2 ticks later: 3 ticks into the pause the thread still sleeps,
    with 17 ticks to go, and has called [set] once, for [RED]; left for
    good, it finishes the 20 ticks and then blocks in [wait()]. *)
Lemma pause_is_not_interruptible_witness :
  let s := (SequenceMode.mk true
              (looped_sequence.mk main.traffic_cycle (looped_sequence.Suspended 0))
              (SequenceMode.InSleep 20),
            TrafficLight.set TrafficLight.init RED) in
  let es := [SequenceMode.Exit; SequenceMode.Tick; SequenceMode.Tick;
             SequenceMode.Enter; SequenceMode.Tick] in
  run SequenceMode.step
    [SequenceMode.Enter; SequenceMode.Thread; SequenceMode.Thread]
    (SequenceMode.init (looped_sequence.call main.traffic_cycle),
     TrafficLight.init) = Some s /\
  (exists s',
     run SequenceMode.step es s = Some s' /\
     SequenceMode._thread (fst s') = SequenceMode.InSleep 17 /\
     TrafficLight.calls (snd s') = [RED]) /\
  (run SequenceMode.step
     (SequenceMode.Exit :: repeat SequenceMode.Tick 20 ++ [SequenceMode.Thread]) s =
     Some (SequenceMode.mk false
             (looped_sequence.mk main.traffic_cycle (looped_sequence.Suspended 0))
             SequenceMode.InWait,
           TrafficLight.set TrafficLight.init RED) /\
   SequenceMode.step SequenceMode.Thread
     (SequenceMode.mk false
        (looped_sequence.mk main.traffic_cycle (looped_sequence.Suspended 0))
        SequenceMode.InWait,
      TrafficLight.set TrafficLight.init RED) = None) /\
  20 <= longest main.traffic_cycle.
Proof.
  cbv zeta.
  pose proof (pause_is_not_interruptible
    (SequenceMode.mk true
       (looped_sequence.mk main.traffic_cycle (looped_sequence.Suspended 0))
       (SequenceMode.InSleep 20),
     TrafficLight.set TrafficLight.init RED)
    [SequenceMode.Exit; SequenceMode.Tick; SequenceMode.Tick;
     SequenceMode.Enter; SequenceMode.Tick])
    as (_ & _ & Hpause & Hexit & _ & _ & Hlong).
  split; [reflexivity|]. split; [|split].
  - eexists. split; [reflexivity|].
    destruct (Hpause 20 _ eq_refl eq_refl) as (Hp & _ & Htl).
    + unfold elapsed. cbn. lia.
    + split; [exact Hp | now rewrite Htl].
  - exact (Hexit 20 eq_refl).
  - apply (Hlong main.traffic_cycle TrafficLight.init
             [SequenceMode.Enter; SequenceMode.Thread; SequenceMode.Thread]
             _ 20 eq_refl eq_refl).
Defined.

(** A watchdog of 2 ticks.  Its bounded wait elapsed while the mode was
    active: [AMBER] is written once, and the thread blocks.  In the
    unbounded wait the byte 4 ([RED]) is received: [_lights] is [RED], and
    the bounded wait starts afresh, with 2 ticks to go.  With the event
    raised, one tick of silence is not enough for the wait to elapse. *)
Lemma fallback_once_per_silence_witness :
  let elapsed_wait :=
    UdpListenerMode.mk RED_GREEN true 2 false UdpListenerMode.InRecvfrom
      (UdpListenerMode.InWaitTimeout 0) in
  let blocked :=
    UdpListenerMode.mk AMBER true 2 false UdpListenerMode.InRecvfrom
      UdpListenerMode.InWait in
  let raised :=
    UdpListenerMode.mk RED true 2 true UdpListenerMode.InRecvfrom
      UdpListenerMode.InWait in
  let silence :=
    [UdpListenerMode.Timeout; UdpListenerMode.Timeout; UdpListenerMode.Tick;
     UdpListenerMode.Recv [Byte.x09]; UdpListenerMode.Exit] in
  (exists s,
     run UdpListenerMode.step [UdpListenerMode.Timeout; UdpListenerMode.Timeout]
       (elapsed_wait, TrafficLight.init) = Some s /\
     UdpListenerMode._lights (fst s) = AMBER /\
     TrafficLight.calls (snd s) = [AMBER] /\
     UdpListenerMode.step UdpListenerMode.Timeout s = None) /\
  count_along UdpListenerMode.step UdpListenerMode.elapses silence
    (elapsed_wait, TrafficLight.init) <= 1 /\
  (exists s,
     run UdpListenerMode.step
       [UdpListenerMode.Recv [Byte.x04]; UdpListenerMode.Timeout;
        UdpListenerMode.Timeout; UdpListenerMode.Timeout]
       (blocked, TrafficLight.init) = Some s /\
     UdpListenerMode._lights (fst s) = RED /\
     UdpListenerMode._update_timeout_thread (fst s) =
       UdpListenerMode.InWaitTimeout 2) /\
  count_along UdpListenerMode.step UdpListenerMode.elapses
    [UdpListenerMode.Timeout; UdpListenerMode.Timeout; UdpListenerMode.Timeout;
     UdpListenerMode.Tick]
    (raised, TrafficLight.init) = 0.
Proof.
  cbv zeta. split; [|split; [|split]].
  - destruct (fallback_once_per_silence
                (UdpListenerMode.mk RED_GREEN true 2 false UdpListenerMode.InRecvfrom
                   (UdpListenerMode.InWaitTimeout 0))
                TrafficLight.init [])
      as (Hfall & _).
    destruct (Hfall eq_refl eq_refl) as (s & Hr & _ & _ & Hl & Hc & _ & _ & Hb & _).
    exists s. auto.
  - destruct (fallback_once_per_silence
                (UdpListenerMode.mk RED_GREEN true 2 false UdpListenerMode.InRecvfrom
                   (UdpListenerMode.InWaitTimeout 0))
                TrafficLight.init
                [UdpListenerMode.Timeout; UdpListenerMode.Timeout; UdpListenerMode.Tick;
                 UdpListenerMode.Recv [Byte.x09]; UdpListenerMode.Exit])
      as (_ & Honce & _).
    exact (proj1 (Honce eq_refl)).
  - destruct (fallback_once_per_silence
                (UdpListenerMode.mk AMBER true 2 false UdpListenerMode.InRecvfrom
                   UdpListenerMode.InWait)
                TrafficLight.init [])
      as (_ & _ & Hrestart & _).
    destruct (Hrestart Byte.x04 [] RED eq_refl eq_refl eq_refl)
      as (s & Hr & Hl & _ & Hp).
    exists s. auto.
  - destruct (fallback_once_per_silence
                (UdpListenerMode.mk RED true 2 true UdpListenerMode.InRecvfrom
                   UdpListenerMode.InWait)
                TrafficLight.init
                [UdpListenerMode.Timeout; UdpListenerMode.Timeout;
                 UdpListenerMode.Timeout; UdpListenerMode.Tick])
      as (_ & _ & _ & Hfresh).
    refine (proj1 (Hfresh eq_refl eq_refl _)). unfold ticks. cbn. lia.
Defined.

(** C4, at a valid datagram that arrives after the bounded wait has
    returned [False] and before [_update(Lights.AMBER)] runs.  A mode of 2
    ticks is entered and hears nothing for 2 ticks; its bounded wait
    elapses; the byte 4 ([RED]) is received and shown, and raises the
    event.  In the silence that follows, the fallback that was pending is
    applied at once, no tick after the datagram; the unbounded [wait()]
    returns at once, since the event is raised; and after 2 more ticks the
    fallback is applied again: two fallbacks in one silence, where the
    claim allows one, and the first of them without the fresh silence that
    the claim requires. *)
Theorem late_datagram_two_fallbacks :
  let before :=
    [UdpListenerMode.Enter; UdpListenerMode.Tick; UdpListenerMode.Tick;
     UdpListenerMode.Timeout; UdpListenerMode.Recv [Byte.x04]] in
  let silence :=
    [UdpListenerMode.Timeout; UdpListenerMode.Timeout; UdpListenerMode.Timeout;
     UdpListenerMode.Timeout; UdpListenerMode.Tick; UdpListenerMode.Tick;
     UdpListenerMode.Timeout; UdpListenerMode.Timeout] in
  exists s1 s2,
    run UdpListenerMode.step before (UdpListenerMode.init 2, TrafficLight.init)
      = Some s1 /\
    UdpListenerMode._lights (fst s1) = RED /\
    UdpListenerMode._on_updated (fst s1) = true /\
    TrafficLight.calls (snd s1) = [AMBER; RED] /\
    forallb UdpListenerMode.silent silence = true /\
    count_along UdpListenerMode.step UdpListenerMode.falls_back
      [UdpListenerMode.Timeout] s1 = 1 /\
    run UdpListenerMode.step silence s1 = Some s2 /\
    count_along UdpListenerMode.step UdpListenerMode.falls_back silence s1 = 2 /\
    TrafficLight.calls (snd s2) = [AMBER; RED; AMBER; AMBER].
Proof.
  cbv zeta. eexists _, _.
  split; [reflexivity|]. split; [reflexivity|]. split; [reflexivity|].
  split; [reflexivity|]. split; [reflexivity|]. split; [reflexivity|].
  split; [reflexivity|]. split; reflexivity.
Qed.


(* ===================================================================== *)
(** * Further properties: the traffic light and the controller *)

(** X1. What the LEDs show after [set] depends on the lights only, and
    tells them apart: two calls of [set] leave the same LEDs exactly when
    they were given the same member; every pattern of the three LEDs is
    shown by some member; and reading the LEDs back as the bits 2, 1 and 0
    of an integer and decoding it gives the member that was set. *)
Theorem leds_identify_lights (tl1 tl2 : TrafficLight.t) (l1 l2 : Lights) :
  (leds (TrafficLight.set tl1 l1) = leds (TrafficLight.set tl2 l2) <-> l1 = l2) /\
  (forall r a g : bool, exists l, leds (TrafficLight.set tl1 l) = (r, a, g)) /\
  (let '(r, a, g) := leds (TrafficLight.set tl1 l1) in
   Lights_call (4 * Z.b2z r + 2 * Z.b2z a + Z.b2z g)%Z = Ok l1).
Proof.
  split; [|split].
  - split.
    + destruct l1, l2; cbn; intros E; try reflexivity; discriminate E.
    + intros ->. reflexivity.
  - intros [|] [|] [|].
    + exists ALL. reflexivity.
    + exists RED_AMBER. reflexivity.
    + exists RED_GREEN. reflexivity.
    + exists RED. reflexivity.
    + exists AMBER_GREEN. reflexivity.
    + exists AMBER. reflexivity.
    + exists GREEN. reflexivity.
    + exists NONE. reflexivity.
  - destruct l1; reflexivity.
Qed.

Section ControllerEdges.
Context {M : Type} `{Mode M}.
Import ModesController.

(** X2. Over an empty list of modes both [start()] and the callback of
    the button raise [IndexError], whatever the index: the callback fails at
    [self._modes[self._i]] of its first line, before the modulo by the
    length 0 is reached, so no [ZeroDivisionError] is ever raised; any run
    of events fails at its first event. *)
Theorem empty_modes_raise_IndexError (i : nat) (tl : TrafficLight.t)
    (calls : list call) (e : event) (es : list event) :
  let w := mkWorld (mk i (@nil M)) tl calls in
  start w = Raise IndexError /\
  switch_mode w = Raise IndexError /\
  exec (e :: es) w = Raise IndexError.
Proof.
  cbv zeta. split; [reflexivity|]. split; [reflexivity|].
  destruct e; reflexivity.
Qed.

Lemma modes_exit_frame (k : nat) (w w' : world M) :
  modes_exit k w = Ok w' ->
  _i (self w') = _i (self w) /\
  length (_modes (self w')) = length (_modes (self w)) /\
  forall j, j <> k -> _modes (self w') !! j = _modes (self w) !! j.
Proof.
  unfold modes_exit, getitem.
  destruct (_modes (self w) !! k) as [m|]; [|discriminate].
  cbn [mbind result_bind]. destruct (exit m (traffic_light w)) as [m' tl'].
  intros [= <-]. cbn [self _i _modes]. rewrite length_insert.
  split; [reflexivity|]. split; [reflexivity|].
  intros j Hj. apply list_lookup_insert_ne. congruence.
Qed.

Lemma modes_enter_frame (k : nat) (w w' : world M) :
  modes_enter k w = Ok w' ->
  _i (self w') = _i (self w) /\
  length (_modes (self w')) = length (_modes (self w)) /\
  forall j, j <> k -> _modes (self w') !! j = _modes (self w) !! j.
Proof.
  unfold modes_enter, getitem.
  destruct (_modes (self w) !! k) as [m|]; [|discriminate].
  cbn [mbind result_bind]. destruct (enter m (traffic_light w)) as [m' tl'].
  intros [= <-]. cbn [self _i _modes]. rewrite length_insert.
  split; [reflexivity|]. split; [reflexivity|].
  intros j Hj. apply list_lookup_insert_ne. congruence.
Qed.

(** X3. A press of the button that succeeds keeps the number of modes, and
    touches the mode it leaves and the mode it enters only: the mode at any
    other position of the list is as it was. *)
Theorem switch_mode_frame (w w' : world M) :
  switch_mode w = Ok w' ->
  length (_modes (self w')) = length (_modes (self w)) /\
  forall k, k <> _i (self w) -> k <> _i (self w') ->
    _modes (self w') !! k = _modes (self w) !! k.
Proof.
  unfold switch_mode. intros Hs.
  destruct (modes_exit (_i (self w)) w) as [w1|] eqn:E1; [|discriminate].
  cbn [mbind result_bind] in Hs.
  destruct (py_mod _ _) as [i'|] eqn:Ei; [|discriminate].
  cbn [mbind result_bind self _i] in Hs.
  apply modes_exit_frame in E1 as (_ & Hl1 & Hf1).
  apply modes_enter_frame in Hs as (Hi2 & Hl2 & Hf2).
  cbn [self _i _modes] in Hi2, Hl2, Hf2.
  split; [congruence|].
  intros k Hk Hk'. rewrite Hf2 by congruence. now apply Hf1.
Qed.

(** X4. The callback of the button is installed by the constructor, so the
    button may be pressed before [start()]: the press calls [exit()] on the
    first mode, which was never entered, and enters the next one, and a
    [start()] after it enters that mode again, not the first one.  In any
    case, after one event or more, the current mode is the one active
    mode. *)
Theorem current_mode_active_after_any_event (modes : list M)
    (tl : TrafficLight.t) (e : event) (es : list event) :
  modes <> [] ->
  (exists w,
     exec (e :: es) (init modes tl) = Ok w /\
     active_modes (log w) (length modes) = [_i (self w)]) /\
  (exists w,
     exec [Press; Start] (init modes tl) = Ok w /\
     _i (self w) = 1 mod length modes /\
     log w = [CallExit 0; CallEnter (1 mod length modes);
              CallEnter (1 mod length modes)]).
Proof.
  intros Hm. pose proof (init_idle modes tl Hm) as H0. split.
  - cbn [exec].
    destruct (step_running _ e _ (or_introl H0)) as (w1 & -> & H1).
    cbn [mbind result_bind].
    destruct (exec_running _ es w1 H1) as (w & E & ([Hi _] & Ho & _)).
    exists w. split; [exact E|].
    rewrite (only_active_modes _ _ _ Ho).
    now apply Nat.ltb_lt in Hi as ->.
  - destruct (switch_mode_ok _ _ (proj1 H0)) as (w1 & E1 & Hw1 & Ei1 & El1).
    destruct (start_ok _ _ Hw1) as (w2 & E2 & _ & Ei2 & El2).
    exists w2. cbn [exec step]. rewrite E1. cbn [mbind result_bind].
    rewrite E2. cbn [mbind result_bind].
    cbn in Ei1, El1. split; [reflexivity|].
    split; [congruence|]. rewrite El2, El1, Ei1. reflexivity.
Qed.

End ControllerEdges.

Lemma switch_mode_frame_witness :
  let w := ModesController.init
             [FixedMode.mk ALL; FixedMode.mk NONE; FixedMode.mk AMBER]
             TrafficLight.init in
  exists w',
    ModesController.switch_mode w = Ok w' /\
    length (ModesController._modes (ModesController.self w')) = 3 /\
    ModesController._modes (ModesController.self w') !! 2 = Some (FixedMode.mk AMBER).
Proof.
  cbv zeta.
  pose (w' := ModesController.mkWorld
                (ModesController.mk 1
                   [FixedMode.mk ALL; FixedMode.mk NONE; FixedMode.mk AMBER])
                (TrafficLight.set TrafficLight.init NONE)
                [ModesController.CallExit 0; ModesController.CallEnter 1]).
  exists w'. split; [reflexivity|].
  destruct (@switch_mode_frame FixedMode.t FixedMode_Mode
              (ModesController.init
                 [FixedMode.mk ALL; FixedMode.mk NONE; FixedMode.mk AMBER]
                 TrafficLight.init) w' eq_refl) as [Hl Hf].
  split; [exact Hl|]. rewrite Hf; [reflexivity | cbn; lia | cbn; lia].
Defined.

Lemma current_mode_active_after_any_event_witness :
  let modes := [FixedMode.mk ALL; FixedMode.mk NONE] in
  (exists w,
     ModesController.exec [ModesController.Press]
       (ModesController.init modes TrafficLight.init) = Ok w /\
     ModesController.active_modes (ModesController.log w) (length modes) =
       [ModesController._i (ModesController.self w)]) /\
  (exists w,
     ModesController.exec [ModesController.Press; ModesController.Start]
       (ModesController.init modes TrafficLight.init) = Ok w /\
     ModesController._i (ModesController.self w) = 1 mod length modes /\
     ModesController.log w =
       [ModesController.CallExit 0; ModesController.CallEnter (1 mod length modes);
        ModesController.CallEnter (1 mod length modes)]).
Proof.
  apply (current_mode_active_after_any_event
           [FixedMode.mk ALL; FixedMode.mk NONE] TrafficLight.init
           ModesController.Press []).
  discriminate.
Defined.

Section FixedModes.
Import ModesController.

Lemma fixed_modes_exit (modes : list FixedMode.t) (tl0 : TrafficLight.t)
    (k : nat) (w w' : world FixedMode.t) :
  fixed_history modes tl0 w -> modes_exit k w = Ok w' ->
  fixed_history modes tl0 w'.
Proof.
  destruct w as [[i ms] tlw lg]. unfold fixed_history, modes_exit, getitem.
  cbn [self _modes _i traffic_light log]. intros (Hm & Hc & Hl).
  destruct (ms !! k) as [m|] eqn:E; [|discriminate].
  cbn. intros [= <-]. cbn [self _modes traffic_light log].
  rewrite list_insert_id by exact E.
  assert (entered (lg ++ [CallExit k]) = entered lg) as ->
    by (unfold entered; rewrite omap_app; cbn; now rewrite app_nil_r).
  auto.
Qed.

Lemma fixed_modes_enter (modes : list FixedMode.t) (tl0 : TrafficLight.t)
    (k : nat) (w w' : world FixedMode.t) :
  fixed_history modes tl0 w -> modes_enter k w = Ok w' ->
  fixed_history modes tl0 w'.
Proof.
  destruct w as [[i ms] tlw lg]. unfold fixed_history, modes_enter, getitem.
  cbn [self _modes _i traffic_light log]. intros (Hm & Hc & Hl).
  destruct (ms !! k) as [m|] eqn:E; [|discriminate].
  cbn. intros [= <-]. cbn [self _modes traffic_light log].
  rewrite list_insert_id by exact E.
  assert (entered (lg ++ [CallEnter k]) = entered lg ++ [k]) as ->
    by (unfold entered; now rewrite omap_app).
  subst ms. split; [reflexivity|]. split.
  - unfold TrafficLight.set. cbn [TrafficLight.calls].
    rewrite Hc, omap_app, <- app_assoc. cbn. now rewrite E.
  - intros k' m'. rewrite last_snoc. intros [= <-] Hk.
    rewrite E in Hk. now injection Hk as <-.
Qed.

Lemma fixed_modes_step (modes : list FixedMode.t) (tl0 : TrafficLight.t)
    (e : event) (w w' : world FixedMode.t) :
  fixed_history modes tl0 w -> step e w = Ok w' -> fixed_history modes tl0 w'.
Proof.
  intros Hw. destruct e; cbn [step].
  - apply fixed_modes_enter. exact Hw.
  - unfold switch_mode. intros Hs.
    destruct (modes_exit (_i (self w)) w) as [w1|] eqn:E1; [|discriminate].
    cbn [mbind result_bind] in Hs.
    destruct (py_mod _ _) as [i'|]; [|discriminate].
    cbn [mbind result_bind self _i] in Hs.
    apply (fixed_modes_exit modes tl0 _ w w1 Hw) in E1.
    revert Hs. apply fixed_modes_enter.
    destruct w1 as [[i1 ms1] tl1 lg1]. exact E1.
Qed.

Lemma fixed_modes_exec (modes : list FixedMode.t) (tl0 : TrafficLight.t)
    (es : list event) (w w' : world FixedMode.t) :
  fixed_history modes tl0 w -> exec es w = Ok w' -> fixed_history modes tl0 w'.
Proof.
  revert w. induction es as [|e es IH]; intros w Hw Hr.
  - cbn in Hr. now injection Hr as <-.
  - cbn [exec] in Hr. destruct (step e w) as [w1|] eqn:E; [|discriminate].
    cbn [mbind result_bind] in Hr.
    apply (IH w1); [|exact Hr]. now apply (fixed_modes_step modes tl0 e w).
Qed.

Lemma omap_map {A B C : Type} (f : B -> option C) (g : A -> B) (l : list A) :
  omap f (map g l) = omap (fun x => f (g x)) l.
Proof.
  induction l as [|x l IH]; [reflexivity|].
  cbn. destruct (f (g x)); now rewrite IH.
Qed.

(** X5. A controller over fixed modes only: after [start()] and [n]
    presses of the button the list of modes is as it was given, and [set]
    was called [n + 1] times, with the lights of the modes at
    [0 mod N], [1 mod N], ..., [n mod N] in this order; the LEDs show the
    lights of the current mode. *)
Theorem fixed_modes_show_in_turn (modes : list FixedMode.t)
    (tl : TrafficLight.t) (n : nat) :
  modes <> [] ->
  exists w m,
    exec (Start :: repeat Press n) (init modes tl) = Ok w /\
    _modes (self w) = modes /\
    TrafficLight.calls (traffic_light w) =
      TrafficLight.calls tl ++
      omap (fun k => FixedMode._lights <$> modes !! (k mod length modes))
           (seq 0 (S n)) /\
    modes !! (_i (self w)) = Some m /\
    leds (traffic_light w) = leds (TrafficLight.set tl (FixedMode._lights m)).
Proof.
  intros Hm.
  destruct (presses_from_start modes tl n Hm) as (w & E & [Hi Hl] & Ei & _ & En).
  assert (fixed_history modes tl (init modes tl)) as H0.
  { split; [reflexivity|]. split; [cbn; now rewrite app_nil_r|]. discriminate. }
  pose proof (fixed_modes_exec modes tl _ _ w H0 E) as (Hmodes & Hcalls & Hleds).
  destruct (lookup_lt_is_Some_2 modes (_i (self w)) Hi) as [m Hlook].
  exists w, m. split; [exact E|]. split; [exact Hmodes|].
  split; [now rewrite Hcalls, En, omap_map|]. split; [exact Hlook|].
  apply (Hleds (_i (self w))); [|exact Hlook].
  rewrite En, seq_S, map_app. cbn [map Nat.add]. now rewrite last_snoc, Ei.
Qed.

End FixedModes.

Lemma fixed_modes_show_in_turn_witness :
  let modes := [FixedMode.mk ALL; FixedMode.mk NONE] in
  exists w m,
    ModesController.exec
      (ModesController.Start :: repeat ModesController.Press 3)
      (ModesController.init modes TrafficLight.init) = Ok w /\
    ModesController._modes (ModesController.self w) = modes /\
    TrafficLight.calls (ModesController.traffic_light w) =
      TrafficLight.calls TrafficLight.init ++
      omap (fun k => FixedMode._lights <$> modes !! (k mod length modes))
           (seq 0 4) /\
    modes !! (ModesController._i (ModesController.self w)) = Some m /\
    leds (ModesController.traffic_light w) =
      leds (TrafficLight.set TrafficLight.init (FixedMode._lights m)).
Proof.
  apply (fixed_modes_show_in_turn
           [FixedMode.mk ALL; FixedMode.mk NONE] TrafficLight.init 3).
  discriminate.
Defined.

(* ===================================================================== *)
(** * Further properties: the generators and [SequenceMode] *)

Section RandomSequence.
Context {R D : Type}.
Variable randrange : Z -> R -> Z * R.
Variable uniform : R -> D * R.

(** What [random.randrange(n)] promises for a positive [n]. *)
Hypothesis randrange_range :
  forall n r, (0 < n)%Z -> (0 <= fst (randrange n r) < n)%Z.

Local Abbreviation random_next := (random_sequence_lights.next randrange uniform).

Lemma random_next_live (g : random_sequence_lights.t R) :
  random_sequence_lights.finished g = false ->
  exists x g', random_next g = (Ok x, g') /\
    random_sequence_lights.finished g' = false.
Proof using randrange_range.
  intros Hg. unfold random_sequence_lights.next. rewrite Hg.
  pose proof (randrange_range (Z.of_nat (length Lights_members))
                (random_sequence_lights.rng g) eq_refl) as Hr.
  destruct (randrange _ _) as [v r1]. cbn [fst] in Hr.
  destruct (Lights_call_in_range v) as (lights & -> & _); [cbn in Hr; lia|].
  destruct (uniform r1) as [d r2]. eauto.
Qed.

Lemma random_after_pulls_live (k : nat) (r : R) :
  random_sequence_lights.finished
    (@after_pulls _ _ random_next k (random_sequence_lights.call r)) = false.
Proof using randrange_range.
  induction k as [|k IH]; [reflexivity|].
  rewrite after_pulls_S. unfold next at 1.
  destruct (random_next_live _ IH) as (x & g' & -> & Hg'). exact Hg'.
Qed.

(** X6. As long as [randrange(n)] returns an integer of [[0, n)],
    [random_sequence_lights()] never raises: [len(Lights)] is 8 and the
    values of the members are exactly 0 to 7, so [Lights(...)] finds a
    member for every draw, and every call of [next] returns an item and
    leaves the generator live. *)
Theorem random_sequence_lights_never_raises (k : nat) (r : R) :
  exists lights d,
    @nth_pull _ _ random_next k (random_sequence_lights.call r) = Ok (lights, d) /\
    random_sequence_lights.finished
      (@after_pulls _ _ random_next (S k) (random_sequence_lights.call r)) = false.
Proof using randrange_range.
  destruct (random_next_live _ (random_after_pulls_live k r))
    as ([lights d] & g' & E & Hg').
  exists lights, d. split.
  - unfold nth_pull, next. now rewrite E.
  - apply random_after_pulls_live.
Qed.

End RandomSequence.

Lemma counter_randrange_range (n : Z) (r : nat) :
  (0 < n)%Z -> (0 <= fst (counter_randrange n r) < n)%Z.
Proof. intros Hn. cbn. now apply Z.mod_pos_bound. Qed.

Lemma random_sequence_lights_never_raises_witness :
  exists lights d,
    @nth_pull _ _ (random_sequence_lights.next counter_randrange counter_uniform)
      9 (random_sequence_lights.call 0) = Ok (lights, d) /\
    random_sequence_lights.finished
      (@after_pulls _ _ (random_sequence_lights.next counter_randrange counter_uniform)
         10 (random_sequence_lights.call 0)) = false.
Proof.
  exact (random_sequence_lights_never_raises counter_randrange counter_uniform
           counter_randrange_range 9 0).
Defined.

Section NeverDies.
Context {I : Type} `{Iterator I (Lights * nat)}.
Variable good : I -> Prop.
Hypothesis good_next :
  forall it, good it -> exists x it', next it = (Ok x, it') /\ good it'.
Import SequenceMode.

Lemma step_alive (ev : event) (s s' : t I * TrafficLight.t) :
  good (_lights_intervals_iterator (fst s)) ->
  (forall e, _thread (fst s) <> Dead e) ->
  step ev s = Some s' ->
  good (_lights_intervals_iterator (fst s')) /\
  forall e, _thread (fst s') <> Dead e.
Proof using good_next.
  destruct s as [[f it p] tl]. cbn [fst _lights_intervals_iterator _thread].
  intros Hg Hp Hstep. destruct ev; cbn [step fst snd] in Hstep.
  - injection Hstep as <-. unfold tick. cbn [_thread].
    destruct p as [| |[|r]|e]; cbn; split; auto; discriminate.
  - unfold _thread_start in Hstep. cbn in Hstep.
    destruct p as [| |[|r]|e]; try discriminate.
    + destruct f; [|discriminate]. injection Hstep as <-. cbn. split; [auto|discriminate].
    + destruct (good_next it Hg) as ([lights interval] & it' & E & Hg').
      rewrite E in Hstep. injection Hstep as <-. cbn. split; [auto|discriminate].
    + injection Hstep as <-. cbn. split; [auto|discriminate].
  - injection Hstep as <-. cbn. auto.
  - injection Hstep as <-. cbn. auto.
Qed.

Lemma run_alive (es : list event) (s s' : t I * TrafficLight.t) :
  good (_lights_intervals_iterator (fst s)) ->
  (forall e, _thread (fst s) <> Dead e) ->
  run step es s = Some s' ->
  forall e, _thread (fst s') <> Dead e.
Proof using good_next.
  revert s. induction es as [|ev es IH]; intros s Hg Hp Hr.
  - cbn in Hr. now injection Hr as <-.
  - cbn [run] in Hr. destruct (step ev s) as [s1|] eqn:E; [|discriminate].
    destruct (step_alive ev s s1 Hg Hp E) as [Hg1 Hp1].
    now apply (IH s1).
Qed.

End NeverDies.

Lemma looped_sequence_next_live {A : Type} (g : looped_sequence.t A) :
  looped_sequence.l g <> [] /\ looped_sequence.at_ g <> looped_sequence.Finished ->
  exists x g', next g = (Ok x, g') /\
    (looped_sequence.l g' <> [] /\ looped_sequence.at_ g' <> looped_sequence.Finished).
Proof.
  intros [Hl Ha]. destruct g as [l a]. cbn [looped_sequence.l looped_sequence.at_] in *.
  assert (0 < length l) as Hn by (destruct l; [congruence | cbn; lia]).
  unfold next, looped_sequence_Iterator, looped_sequence.next.
  cbn [looped_sequence.l looped_sequence.at_].
  destruct a as [|i|]; [| |congruence].
  - destruct (yield_at_lt l 0 Hn) as (x & _ & ->).
    eexists _, _. split; [reflexivity|]. split; [exact Hl | discriminate].
  - unfold py_mod. destruct (length l) as [|n] eqn:En; [lia|]. rewrite <- En.
    assert ((i + 1) mod length l < length l) as Hlt
      by (apply Nat.mod_upper_bound; lia).
    destruct (yield_at_lt l _ Hlt) as (x & _ & ->).
    eexists _, _. split; [reflexivity|]. split; [exact Hl | discriminate].
Qed.

(** X7. Over a non-empty list the thread of a [SequenceMode] never dies:
    whatever [enter()] and [exit()] are called and however the thread is
    scheduled, [next] never raises in it. *)
Theorem looped_sequence_thread_never_dies (l : list (Lights * nat))
    (tl : TrafficLight.t) (es : list SequenceMode.event)
    (s' : SequenceMode.t (looped_sequence.t (Lights * nat)) * TrafficLight.t) :
  l <> [] ->
  run SequenceMode.step es (SequenceMode.init (looped_sequence.call l), tl) = Some s' ->
  forall e, SequenceMode._thread (fst s') <> SequenceMode.Dead e.
Proof.
  intros Hl Hr.
  apply (run_alive
           (fun g => looped_sequence.l g <> [] /\
                     looped_sequence.at_ g <> looped_sequence.Finished)
           looped_sequence_next_live es
           (SequenceMode.init (looped_sequence.call l), tl) s'); [| |exact Hr].
  - split; [exact Hl | discriminate].
  - discriminate.
Qed.

Lemma looped_sequence_thread_never_dies_witness :
  SequenceMode._thread
    (SequenceMode.mk true
       (looped_sequence.mk main.traffic_cycle (looped_sequence.Suspended 0))
       (SequenceMode.InSleep 20)) <> SequenceMode.Dead IndexError.
Proof.
  exact (looped_sequence_thread_never_dies main.traffic_cycle TrafficLight.init
           [SequenceMode.Enter; SequenceMode.Thread; SequenceMode.Thread]
           (SequenceMode.mk true
              (looped_sequence.mk main.traffic_cycle (looped_sequence.Suspended 0))
              (SequenceMode.InSleep 20),
            TrafficLight.set TrafficLight.init RED)
           ltac:(discriminate) eq_refl IndexError).
Defined.

Section RandomThread.
Context {R : Type}.
Variable randrange : Z -> R -> Z * R.
Variable uniform : R -> nat * R.
Hypothesis randrange_range :
  forall n r, (0 < n)%Z -> (0 <= fst (randrange n r) < n)%Z.

Local Abbreviation random_next := (random_sequence_lights.next randrange uniform).

(** X8. As long as [randrange(n)] returns an integer of [[0, n)], the
    thread of a [SequenceMode] over [random_sequence_lights()] never dies,
    whatever [enter()] and [exit()] are called and however it is
    scheduled. *)
Theorem random_sequence_thread_never_dies (r : R) (tl : TrafficLight.t)
    (es : list SequenceMode.event)
    (s' : SequenceMode.t (random_sequence_lights.t R) * TrafficLight.t) :
  @run _ _ (@SequenceMode.step _ random_next) es
    (SequenceMode.init (random_sequence_lights.call r), tl) = Some s' ->
  forall e, SequenceMode._thread (fst s') <> SequenceMode.Dead e.
Proof using randrange_range.
  intros Hr.
  apply (@run_alive _ random_next
           (fun g => random_sequence_lights.finished g = false)
           (random_next_live randrange uniform randrange_range) es
           (SequenceMode.init (random_sequence_lights.call r), tl) s');
    [reflexivity | discriminate | exact Hr].
Qed.

End RandomThread.

Lemma random_sequence_thread_never_dies_witness :
  exists s',
    @run _ _ (@SequenceMode.step _
                (random_sequence_lights.next counter_randrange counter_uniform))
      [SequenceMode.Enter; SequenceMode.Thread; SequenceMode.Thread;
       SequenceMode.Tick; SequenceMode.Thread; SequenceMode.Thread;
       SequenceMode.Thread]
      (SequenceMode.init (random_sequence_lights.call 5), TrafficLight.init)
      = Some s' /\
    TrafficLight.calls (snd s') = [RED_GREEN; ALL] /\
    SequenceMode._thread (fst s') <> SequenceMode.Dead ValueError.
Proof.
  eexists. split; [reflexivity|]. split; [reflexivity|].
  exact (random_sequence_thread_never_dies counter_randrange counter_uniform
           counter_randrange_range 5 TrafficLight.init
           [SequenceMode.Enter; SequenceMode.Thread; SequenceMode.Thread;
            SequenceMode.Tick; SequenceMode.Thread; SequenceMode.Thread;
            SequenceMode.Thread]
           _ eq_refl ValueError).
Defined.

Section SequenceOrder.
Import SequenceMode.

Lemma cycle_from_S {A : Type} (l : list A) (j m : nat) (a : A) :
  l !! (j mod length l) = Some a ->
  cycle_from l j (S m) = a :: cycle_from l (S j) m.
Proof.
  intros Ha. unfold cycle_from. cbn [seq].
  change (omap ?f (?x :: ?r)) with
    (match f x with Some y => y :: omap f r | None => omap f r end).
  cbv beta. now rewrite Ha.
Qed.

(** The thread pulls the items of the list in order, one per run of its
    loop body, and calls [set] with each. *)
Lemma run_in_order (l : list (Lights * nat)) (es : list event) (j : nat)
    (s s' : t (looped_sequence.t (Lights * nat)) * TrafficLight.t) :
  l <> [] ->
  _lights_intervals_iterator (fst s) = after_pulls j (looped_sequence.call l) ->
  run step es s = Some s' ->
  _lights_intervals_iterator (fst s') =
    after_pulls (j + count_along step pulls es s) (looped_sequence.call l) /\
  TrafficLight.calls (snd s') =
    TrafficLight.calls (snd s) ++
    map fst (cycle_from l j (count_along step pulls es s)).
Proof.
  intros Hl. revert j s. induction es as [|ev es IH]; intros j s Hit Hr.
  - cbn in Hr. injection Hr as <-. cbn. now rewrite Nat.add_0_r, app_nil_r.
  - cbn [run count_along] in Hr |- *.
    destruct (step ev s) as [s1|] eqn:E; [|discriminate].
    destruct (pulls s ev) eqn:P.
    + destruct s as [[f it p] tl]. unfold pulls in P. cbn [fst _thread] in P, Hit.
      cbn [_lights_intervals_iterator] in Hit.
      destruct ev; try discriminate. destruct p; try discriminate.
      cbn [step fst snd] in E. unfold _thread_start in E. cbn in E.
      destruct (looped_sequence_nth_pull l j Hl) as (a & Ha & Hn).
      unfold nth_pull in Hn. rewrite <- Hit in Hn.
      pose proof (after_pulls_S j (looped_sequence.call l)) as HS.
      rewrite <- Hit in HS.
      destruct (next it) as [res it'] eqn:En. cbn [fst snd] in Hn, HS. subst res it'.
      destruct a as [lights interval]. injection E as <-.
      apply IH with (j := S j) in Hr as [Hi Hc]; [|reflexivity].
      split.
      * rewrite Hi. f_equal. lia.
      * rewrite Hc. cbn [snd]. unfold TrafficLight.set. cbn [TrafficLight.calls].
        rewrite (cycle_from_S l j _ _ Ha), <- app_assoc. reflexivity.
    + assert (_lights_intervals_iterator (fst s1) = _lights_intervals_iterator (fst s) /\
              snd s1 = snd s) as [Hi1 Ht1].
      { destruct s as [[f it p] tl]. unfold pulls in P. cbn [fst _thread] in P.
        destruct ev; cbn [step fst snd] in E.
        - injection E as <-. unfold tick. cbn. now destruct p as [| |[|r]|e].
        - unfold _thread_start in E. cbn in E.
          destruct p as [| |[|r]|e]; try discriminate.
          + destruct f; [|discriminate]. now injection E as <-.
          + now injection E as <-.
        - now injection E as <-.
        - now injection E as <-. }
      destruct (IH j s1 ltac:(congruence) Hr) as [Hi Hc].
      split; [exact Hi|]. rewrite Hc, Ht1. reflexivity.
Qed.

(** X9. A [SequenceMode] over a non-empty list goes through the list in
    order and resumes where it stopped: however [enter()], [exit()], the
    ticks and the steps of its thread are interleaved, when the thread has
    run its loop body [m] times, [set] was called with the lights of
    [l[0 mod n]], ..., [l[(m-1) mod n]] in this order and nothing else, and
    the generator has been pulled [m] times. *)
Theorem sequence_resumes_where_it_stopped (l : list (Lights * nat))
    (tl : TrafficLight.t) (es : list event)
    (s' : t (looped_sequence.t (Lights * nat)) * TrafficLight.t) :
  l <> [] ->
  run step es (init (looped_sequence.call l), tl) = Some s' ->
  let m := count_along step pulls es (init (looped_sequence.call l), tl) in
  _lights_intervals_iterator (fst s') = after_pulls m (looped_sequence.call l) /\
  TrafficLight.calls (snd s') = TrafficLight.calls tl ++ map fst (cycle_from l 0 m).
Proof.
  intros Hl Hr. cbv zeta.
  exact (run_in_order l es 0 (init (looped_sequence.call l), tl) s' Hl eq_refl Hr).
Qed.

End SequenceOrder.

Lemma sequence_resumes_where_it_stopped_witness :
  exists s',
    run SequenceMode.step
      [SequenceMode.Enter; SequenceMode.Thread; SequenceMode.Thread;
       SequenceMode.Exit; SequenceMode.Tick; SequenceMode.Tick;
       SequenceMode.Thread; SequenceMode.Enter; SequenceMode.Thread;
       SequenceMode.Thread]
      (SequenceMode.init (looped_sequence.call [(RED, 2); (GREEN, 1)]),
       TrafficLight.init) = Some s' /\
    SequenceMode._lights_intervals_iterator (fst s') =
      after_pulls 2 (looped_sequence.call [(RED, 2); (GREEN, 1)]) /\
    TrafficLight.calls (snd s') = [RED; GREEN].
Proof.
  eexists. split; [reflexivity|].
  exact (sequence_resumes_where_it_stopped [(RED, 2); (GREEN, 1)] TrafficLight.init
           [SequenceMode.Enter; SequenceMode.Thread; SequenceMode.Thread;
            SequenceMode.Exit; SequenceMode.Tick; SequenceMode.Tick;
            SequenceMode.Thread; SequenceMode.Enter; SequenceMode.Thread;
            SequenceMode.Thread]
           _ ltac:(discriminate) eq_refl).
Defined.

Section SequenceIdle.
Context {I : Type} `{Iterator I (Lights * nat)}.
Import SequenceMode.

(** X10. A [SequenceMode] that is not active and whose thread is in
    [wait()] stays exactly as it is until [enter()] is called: time may
    pass and [exit()] may be called again, but the thread cannot be
    scheduled, the traffic light is not touched and the iterator is not
    pulled.  In particular a mode that was never entered does nothing. *)
Theorem inactive_mode_does_nothing (it : I) (tl : TrafficLight.t)
    (es : list event) (s' : t I * TrafficLight.t) :
  forallb (fun e => negb (is_enter e)) es = true ->
  run step es (mk false it InWait, tl) = Some s' ->
  s' = (mk false it InWait, tl) /\ step Thread s' = None.
Proof.
  induction es as [|e es IH]; intros He Hr.
  - cbn in Hr. injection Hr as <-. auto.
  - cbn [forallb] in He. apply andb_true_iff in He as [He Hes].
    destruct e; try discriminate; cbn in Hr; auto.
Qed.

End SequenceIdle.

Lemma inactive_mode_does_nothing_witness :
  run SequenceMode.step
    [SequenceMode.Tick; SequenceMode.Exit; SequenceMode.Tick]
    (SequenceMode.init (looped_sequence.call main.traffic_cycle),
     TrafficLight.init) =
    Some (SequenceMode.init (looped_sequence.call main.traffic_cycle),
          TrafficLight.init) /\
  SequenceMode.step SequenceMode.Thread
    (SequenceMode.init (looped_sequence.call main.traffic_cycle),
     TrafficLight.init) = None.
Proof.
  split; [reflexivity|].
  exact (proj2 (inactive_mode_does_nothing
                  (looped_sequence.call main.traffic_cycle) TrafficLight.init
                  [SequenceMode.Tick; SequenceMode.Exit; SequenceMode.Tick]
                  _ eq_refl eq_refl)).
Defined.

(* ===================================================================== *)
(** * Further properties: [UdpListenerMode] *)

Section ListenerGate.
Import UdpListenerMode.

Lemma listener_inactive (datagram : list byte) (self : t) (tl : TrafficLight.t) :
  _is_active self = false ->
  snd (_listener_thread_start datagram self tl) = tl.
Proof.
  intros Ha. unfold _listener_thread_start.
  destruct (_listener_thread self); [|reflexivity].
  destruct datagram as [|b rest]; [reflexivity|].
  destruct (valid (b :: rest)) eqn:V.
  - apply valid_cons in V.
    destruct (listener_iteration_valid b rest self tl V) as (l & _ & ->).
    cbn [snd]. unfold _update. cbn [_is_active]. now rewrite Ha.
  - rewrite listener_iteration_ignored; [reflexivity|].
    rewrite <- valid_cons. now rewrite V.
Qed.

Lemma inactive_step (e : event) (s s' : t * TrafficLight.t) :
  _is_active (fst s) = false -> no_enter e = true -> step e s = Some s' ->
  snd s' = snd s /\ _is_active (fst s') = false.
Proof.
  destruct s as [self tl]. cbn [fst snd]. intros Ha He Hstep.
  destruct e as [|datagram| | |]; cbn [step fst snd] in Hstep; try discriminate.
  - injection Hstep as <-. cbn [fst snd]. split; [reflexivity|].
    unfold tick. now destruct (_update_timeout_thread self) as [[|r]| | |].
  - injection Hstep as <-. split; [now apply listener_inactive|].
    pose proof (listener_frame datagram self tl) as (_ & _ & Hact). congruence.
  - unfold _update_timeout_thread_start in Hstep.
    destruct self as [l a T f lp p]. cbn in Ha. subst a.
    destruct p as [r| | |]; cbn in Hstep.
    + destruct f; [now injection Hstep as <-|].
      destruct r; [now injection Hstep as <-|discriminate].
    + now injection Hstep as <-.
    + now injection Hstep as <-.
    + destruct f; [now injection Hstep as <-|discriminate].
  - now injection Hstep as <-.
Qed.

(** X11. While the mode is not active, nothing it does reaches the
    traffic light: whatever datagrams arrive, however time passes and the
    timeout thread runs (its fallback included), and if [exit()] is called
    again, [set] is not called until [enter()] is. *)
Theorem inactive_mode_leaves_light (self : t) (tl : TrafficLight.t)
    (es : list event) (s' : t * TrafficLight.t) :
  _is_active self = false ->
  forallb no_enter es = true ->
  run step es (self, tl) = Some s' ->
  snd s' = tl /\ _is_active (fst s') = false.
Proof.
  revert self tl. induction es as [|e es IH]; intros self tl Ha He Hr.
  - cbn in Hr. injection Hr as <-. auto.
  - cbn [forallb] in He. apply andb_true_iff in He as [He Hes].
    cbn [run] in Hr. destruct (step e (self, tl)) as [[self1 tl1]|] eqn:E;
      [|discriminate].
    destruct (inactive_step e (self, tl) (self1, tl1) Ha He E) as [Ht Ha1].
    cbn [fst snd] in Ht, Ha1. subst tl1. now apply (IH self1 tl).
Qed.

End ListenerGate.

Lemma inactive_mode_leaves_light_witness :
  exists s',
    run UdpListenerMode.step
      [UdpListenerMode.Recv [Byte.x05]; UdpListenerMode.Timeout;
       UdpListenerMode.Timeout; UdpListenerMode.Tick; UdpListenerMode.Tick;
       UdpListenerMode.Timeout; UdpListenerMode.Timeout; UdpListenerMode.Exit]
      (UdpListenerMode.init 2, TrafficLight.init) = Some s' /\
    UdpListenerMode._lights (fst s') = AMBER /\
    snd s' = TrafficLight.init.
Proof.
  eexists. split; [reflexivity|]. split; [reflexivity|].
  exact (proj1 (inactive_mode_leaves_light (UdpListenerMode.init 2)
                  TrafficLight.init
                  [UdpListenerMode.Recv [Byte.x05]; UdpListenerMode.Timeout;
                   UdpListenerMode.Timeout; UdpListenerMode.Tick;
                   UdpListenerMode.Tick; UdpListenerMode.Timeout;
                   UdpListenerMode.Timeout; UdpListenerMode.Exit]
                  _ eq_refl eq_refl eq_refl)).
Defined.

Section ListenerActive.
Import UdpListenerMode.

Lemma last_cons_default {A : Type} (x d : A) (xs : list A) :
  List.last (x :: xs) d = List.last xs x.
Proof.
  revert x d. induction xs as [|y ys IH]; intros x d; [reflexivity|].
  change (List.last (x :: y :: ys) d) with (List.last (y :: ys) d).
  now rewrite !IH.
Qed.

Lemma selected_valid (b : byte) (rest : list byte) (l : Lights) :
  Lights_call (int_of_byte b) = Ok l -> selected (b :: rest) = Some l.
Proof. intros Hl. cbn [selected]. now rewrite Hl. Qed.

Lemma selected_invalid (b : byte) (rest : list byte) :
  valid (b :: rest) = false -> selected (b :: rest) = None.
Proof.
  intros V. cbn [selected]. rewrite Lights_call_out_of_range; [reflexivity|].
  rewrite <- valid_cons. now rewrite V.
Qed.

Lemma time_step_frame (e : event) (s s' : t * TrafficLight.t) :
  match e with Tick | Timeout => True | _ => False end ->
  falls_back s e = false ->
  step e s = Some s' ->
  snd s' = snd s /\
  _lights (fst s') = _lights (fst s) /\
  _is_active (fst s') = _is_active (fst s) /\
  _listener_thread (fst s') = _listener_thread (fst s).
Proof.
  destruct s as [[l a T f lp p] tl]. intros He Hf Hstep.
  destruct e; try contradiction; cbn [step fst snd] in Hstep.
  - injection Hstep as <-. unfold tick. cbn.
    now destruct p as [[|r]| | |].
  - unfold falls_back in Hf. unfold _update_timeout_thread_start in Hstep.
    cbn in Hf, Hstep. destruct p as [r| | |]; try discriminate.
    + destruct f; [now injection Hstep as <-|].
      destruct r; [now injection Hstep as <-|discriminate].
    + now injection Hstep as <-.
    + destruct f; [now injection Hstep as <-|discriminate].
Qed.

(** X12. While the mode is active and its listener runs, and as long as
    neither [enter()] nor [exit()] is called and the timeout thread does not
    apply its fallback, the datagrams are applied one by one in the order
    of their arrival, however time passes and the timeout thread is
    scheduled in between: over non-empty datagrams, [set] is called once
    for each datagram whose first byte is in [[0,7]], with the member it
    selects, and for no other; [_lights] ends as the member selected last
    (or as it was, if none was); and the listener is still running. *)
Theorem active_mode_shows_each_datagram (es : list event)
    (self : t) (tl : TrafficLight.t) (s' : t * TrafficLight.t) :
  _listener_thread self = InRecvfrom ->
  _is_active self = true ->
  forallb arrival_or_time es = true ->
  count_along step falls_back es (self, tl) = 0 ->
  run step es (self, tl) = Some s' ->
  TrafficLight.calls (snd s') =
    TrafficLight.calls tl ++ omap selected (received es) /\
  _lights (fst s') = List.last (omap selected (received es)) (_lights self) /\
  _listener_thread (fst s') = InRecvfrom /\
  _is_active (fst s') = true.
Proof.
  revert self tl. induction es as [|e es IH]; intros self tl Hl Ha He Hc Hr.
  - cbn in Hr. injection Hr as <-. cbn. rewrite app_nil_r. auto.
  - cbn [forallb] in He. apply andb_true_iff in He as [He Hes].
    cbn [run count_along] in Hr, Hc.
    destruct (step e (self, tl)) as [[self1 tl1]|] eqn:E; [|discriminate].
    destruct (falls_back (self, tl) e) eqn:F; [discriminate|].
    cbn [Nat.add] in Hc.
    destruct e as [|[|b rest]| | |]; try discriminate He.
    + destruct (time_step_frame Tick _ _ I F E) as (Ht & Hli & Hac & Hlt).
      cbn [fst snd] in Ht, Hli, Hac, Hlt. subst tl1.
      rewrite <- Hli. apply IH; congruence.
    + cbn [step fst snd] in E. unfold _listener_thread_start in E.
      rewrite Hl in E.
      change (received (Recv (b :: rest) :: es)) with ((b :: rest) :: received es).
      change (omap selected ((b :: rest) :: received es)) with
        (match selected (b :: rest) with
         | Some y => y :: omap selected (received es)
         | None => omap selected (received es)
         end).
      destruct (valid (b :: rest)) eqn:V.
      * apply valid_cons in V.
        destruct (listener_iteration_valid b rest self tl V) as (l & Hv & Hit).
        rewrite Hit in E.
        assert (Lights_call (int_of_byte b) = Ok l) as Hcall
          by (rewrite <- Hv; apply Lights_call_value).
        rewrite (selected_valid b rest l Hcall).
        destruct self as [l0 a T f lp p]. cbn in Hl, Ha. subst lp a.
        unfold _update in E. cbn in E. injection E as <- <-.
        destruct (IH (mk l true T true InRecvfrom p) (TrafficLight.set tl l)
                    eq_refl eq_refl Hes Hc Hr) as (Hcalls & Hlast & Hl' & Ha').
        split; [|split; [|auto]].
        -- rewrite Hcalls. unfold TrafficLight.set. cbn [TrafficLight.calls].
           now rewrite <- app_assoc.
        -- rewrite last_cons_default. exact Hlast.
      * rewrite (selected_invalid b rest V).
        rewrite listener_iteration_ignored in E
          by (rewrite <- valid_cons; now rewrite V).
        injection E as <- <-. now apply IH.
    + destruct (time_step_frame Timeout _ _ I F E) as (Ht & Hli & Hac & Hlt).
      cbn [fst snd] in Ht, Hli, Hac, Hlt. subst tl1.
      rewrite <- Hli. apply IH; congruence.
Qed.

End ListenerActive.

(** The bytes 4, 9 and 1 arrive at an active mode, with ticks and steps of
    the timeout thread in between: [RED], then [GREEN] are shown. *)
Lemma active_mode_shows_each_datagram_witness :
  let self := UdpListenerMode.mk AMBER true 64 false UdpListenerMode.InRecvfrom
                (UdpListenerMode.InWaitTimeout 64) in
  exists s',
    run UdpListenerMode.step
      [UdpListenerMode.Recv [Byte.x04]; UdpListenerMode.Timeout;
       UdpListenerMode.Tick; UdpListenerMode.Recv [Byte.x09; Byte.x01];
       UdpListenerMode.Timeout; UdpListenerMode.Tick;
       UdpListenerMode.Recv [Byte.x01; Byte.xff]; UdpListenerMode.Timeout]
      (self, TrafficLight.init) = Some s' /\
    TrafficLight.calls (snd s') = [RED; GREEN] /\
    UdpListenerMode._lights (fst s') = GREEN /\
    UdpListenerMode._listener_thread (fst s') = UdpListenerMode.InRecvfrom /\
    UdpListenerMode._is_active (fst s') = true.
Proof.
  cbv zeta. eexists. split; [reflexivity|].
  exact (active_mode_shows_each_datagram
           [UdpListenerMode.Recv [Byte.x04]; UdpListenerMode.Timeout;
            UdpListenerMode.Tick; UdpListenerMode.Recv [Byte.x09; Byte.x01];
            UdpListenerMode.Timeout; UdpListenerMode.Tick;
            UdpListenerMode.Recv [Byte.x01; Byte.xff]; UdpListenerMode.Timeout]
           (UdpListenerMode.mk AMBER true 64 false UdpListenerMode.InRecvfrom
              (UdpListenerMode.InWaitTimeout 64))
           TrafficLight.init _ eq_refl eq_refl eq_refl eq_refl eq_refl).
Defined.

Section WatchdogProgress.
Import UdpListenerMode.

Lemma ticks_count_down (k r : nat) (self : t) (tl : TrafficLight.t) :
  _update_timeout_thread self = InWaitTimeout r -> k <= r ->
  run step (repeat Tick k) (self, tl) =
    Some (with_timeout (InWaitTimeout (r - k)) self, tl).
Proof.
  revert r self. induction k as [|k IH]; intros r self Hp Hk.
  - cbn. rewrite Nat.sub_0_r. destruct self as [l a T f lp p]. cbn in Hp.
    now subst p.
  - destruct r as [|r]; [lia|].
    cbn [repeat run step fst snd]. unfold tick. rewrite Hp.
    rewrite (IH r) by (reflexivity || lia).
    destruct self; reflexivity.
Qed.

(** X13. A bounded wait with [r] ticks left and the event clear blocks the
    timeout thread for those [r] ticks: before they have passed the thread
    cannot be scheduled; once they have, scheduling it twice makes [wait]
    return [False] and applies the fallback: [_lights] is [AMBER], [set] was
    called with [AMBER] exactly if the mode is active, and the thread is in
    the unbounded [wait()]. *)
Theorem bounded_wait_then_fallback (self : t) (tl : TrafficLight.t) (r : nat) :
  _update_timeout_thread self = InWaitTimeout r ->
  _on_updated self = false ->
  (forall k, k < r ->
     exists s, run step (repeat Tick k) (self, tl) = Some s /\
               step Timeout s = None) /\
  exists s,
    run step (repeat Tick r ++ [Timeout; Timeout]) (self, tl) = Some s /\
    _lights (fst s) = AMBER /\
    _update_timeout_thread (fst s) = InWait /\
    TrafficLight.calls (snd s) =
      TrafficLight.calls tl ++ (if _is_active self then [AMBER] else []).
Proof.
  intros Hp Hf. split.
  - intros k Hk. eexists. split; [apply (ticks_count_down k r); [exact Hp | lia]|].
    cbn [step fst snd]. unfold _update_timeout_thread_start.
    destruct self as [l a T f lp p]. cbn in Hp, Hf |- *. subst p f.
    destruct (r - k) eqn:E; [lia | reflexivity].
  - rewrite run_app, (ticks_count_down r r self tl Hp (le_n r)), Nat.sub_diag.
    destruct self as [l a T f lp p]. cbn in Hp, Hf |- *. subst p f.
    destruct a; cbn; eexists; repeat split. now rewrite app_nil_r.
Qed.

(** X15. Once its listener is dead (after an empty datagram), a mode whose
    timeout thread is in the unbounded [wait()] with the event clear is
    stuck for good: whatever datagrams arrive and however long one waits,
    [_lights] never changes again, the event is never raised and the
    timeout thread never runs; the only calls of [set] are those of
    [enter()], all with the same [_lights]. *)
Theorem dead_listener_is_stuck (self : t) (tl : TrafficLight.t) (e : exn)
    (es : list event) (s' : t * TrafficLight.t) :
  _listener_thread self = ListenerDead e ->
  _update_timeout_thread self = InWait ->
  _on_updated self = false ->
  run step es (self, tl) = Some s' ->
  _lights (fst s') = _lights self /\
  _on_updated (fst s') = false /\
  _update_timeout_thread (fst s') = InWait /\
  _listener_thread (fst s') = ListenerDead e /\
  exists n, TrafficLight.calls (snd s') =
            TrafficLight.calls tl ++ repeat (_lights self) n.
Proof.
  revert self tl. induction es as [|ev es IH]; intros self tl Hl Hp Hf Hr.
  - cbn in Hr. injection Hr as <-. cbn [fst snd].
    split; [reflexivity|]. split; [exact Hf|]. split; [exact Hp|].
    split; [exact Hl|]. exists 0. cbn. now rewrite app_nil_r.
  - destruct self as [l a T f lp p]. cbn in Hl, Hp, Hf. subst lp p f.
    cbn [run] in Hr. destruct ev as [|datagram| | |]; cbn in Hr.
    + now apply IH in Hr.
    + now apply IH in Hr.
    + discriminate.
    + apply IH in Hr as (H1 & H2 & H3 & H4 & n & H5); try reflexivity.
      split; [exact H1|]. split; [exact H2|]. split; [exact H3|].
      split; [exact H4|]. exists (S n). rewrite H5.
      cbn. now rewrite <- app_assoc.
    + now apply IH in Hr.
Qed.

End WatchdogProgress.

Lemma bounded_wait_then_fallback_witness :
  (forall k, k < 2 ->
     exists s,
       run UdpListenerMode.step (repeat UdpListenerMode.Tick k)
         (UdpListenerMode.enter (UdpListenerMode.init 2) TrafficLight.init) = Some s /\
       UdpListenerMode.step UdpListenerMode.Timeout s = None) /\
  exists s,
    run UdpListenerMode.step
      (repeat UdpListenerMode.Tick 2 ++
       [UdpListenerMode.Timeout; UdpListenerMode.Timeout])
      (UdpListenerMode.enter (UdpListenerMode.init 2) TrafficLight.init) = Some s /\
    UdpListenerMode._lights (fst s) = AMBER /\
    UdpListenerMode._update_timeout_thread (fst s) = UdpListenerMode.InWait /\
    TrafficLight.calls (snd s) = [AMBER; AMBER].
Proof.
  exact (bounded_wait_then_fallback
           (fst (UdpListenerMode.enter (UdpListenerMode.init 2) TrafficLight.init))
           (snd (UdpListenerMode.enter (UdpListenerMode.init 2) TrafficLight.init))
           2 eq_refl eq_refl).
Defined.


(** An active mode of 2 ticks receives the empty datagram; the timeout
    elapses and [AMBER] is written; from then on the bytes 4 and 1 change
    nothing. *)
Lemma dead_listener_is_stuck_witness :
  exists s s',
    run UdpListenerMode.step
      [UdpListenerMode.Enter; UdpListenerMode.Recv []; UdpListenerMode.Tick;
       UdpListenerMode.Tick; UdpListenerMode.Timeout; UdpListenerMode.Timeout]
      (UdpListenerMode.init 2, TrafficLight.init) = Some s /\
    run UdpListenerMode.step
      [UdpListenerMode.Recv [Byte.x04]; UdpListenerMode.Tick;
       UdpListenerMode.Recv [Byte.x01]; UdpListenerMode.Tick;
       UdpListenerMode.Tick] s = Some s' /\
    UdpListenerMode._lights (fst s') = AMBER /\
    UdpListenerMode._on_updated (fst s') = false /\
    TrafficLight.calls (snd s') = [AMBER; AMBER].
Proof.
  eexists _, _. split; [reflexivity|]. split; [reflexivity|].
  destruct (dead_listener_is_stuck
              (UdpListenerMode.mk AMBER true 2 false
                 (UdpListenerMode.ListenerDead IndexError) UdpListenerMode.InWait)
              (TrafficLight.set (TrafficLight.set TrafficLight.init AMBER) AMBER)
              IndexError
              [UdpListenerMode.Recv [Byte.x04]; UdpListenerMode.Tick;
               UdpListenerMode.Recv [Byte.x01]; UdpListenerMode.Tick;
               UdpListenerMode.Tick]
              _ eq_refl eq_refl eq_refl eq_refl) as (H1 & H2 & _).
  split; [exact H1|]. split; [exact H2 | reflexivity].
Defined.

Section WatchdogKick.
Import UdpListenerMode.

(** X16. A valid datagram received during the bounded wait restarts it:
    whatever was left of the wait, once the timeout thread has run (it
    sees [wait] return [True], then clears the event) it is in a bounded
    wait of the full timeout again, with the event clear and [_lights] the
    member that the datagram selects. *)
Theorem datagram_restarts_bounded_wait (self : t) (tl : TrafficLight.t)
    (r : nat) (b : byte) (rest : list byte) (l : Lights) :
  _update_timeout_thread self = InWaitTimeout r ->
  _listener_thread self = InRecvfrom ->
  Lights_call (int_of_byte b) = Ok l ->
  exists s,
    run step [Recv (b :: rest); Timeout; Timeout] (self, tl) = Some s /\
    _lights (fst s) = l /\
    _on_updated (fst s) = false /\
    _update_timeout_thread (fst s) = InWaitTimeout (_update_timeout self) /\
    TrafficLight.calls (snd s) =
      TrafficLight.calls tl ++ (if _is_active self then [l] else []).
Proof.
  intros Hp Hl Hb.
  pose proof (Lights_call_Ok _ _ Hb) as Hv.
  destruct (listener_iteration_valid b rest self tl) as (l' & Hv' & Hit).
  { rewrite <- Hv. apply value_range. }
  assert (l' = l) as -> by (apply value_inj; congruence).
  cbn [run step fst snd]. unfold _listener_thread_start. rewrite Hl, Hit.
  destruct self as [l0 a T f lp p]. cbn in Hp, Hl. subst p lp.
  unfold _update. cbn [_is_active _lights].
  destruct a; cbn; eexists; repeat split. now rewrite app_nil_r.
Qed.

End WatchdogKick.

Lemma datagram_restarts_bounded_wait_witness :
  let self := UdpListenerMode.mk AMBER true 64 false UdpListenerMode.InRecvfrom
                (UdpListenerMode.InWaitTimeout 3) in
  exists s,
    run UdpListenerMode.step
      [UdpListenerMode.Recv [Byte.x06]; UdpListenerMode.Timeout;
       UdpListenerMode.Timeout] (self, TrafficLight.init) = Some s /\
    UdpListenerMode._lights (fst s) = RED_AMBER /\
    UdpListenerMode._on_updated (fst s) = false /\
    UdpListenerMode._update_timeout_thread (fst s) =
      UdpListenerMode.InWaitTimeout 64 /\
    TrafficLight.calls (snd s) = [RED_AMBER].
Proof.
  exact (datagram_restarts_bounded_wait
           (UdpListenerMode.mk AMBER true 64 false UdpListenerMode.InRecvfrom
              (UdpListenerMode.InWaitTimeout 3))
           TrafficLight.init 3 Byte.x06 [] RED_AMBER eq_refl eq_refl eq_refl).
Defined.

(* ===================================================================== *)
(** * Further properties: calls of [_update] and [enter()] that overlap *)

Section Overlap.
Import UdpListenerStatements.

Lemma interleave_two {A : Type} (a1 a2 b1 b2 : A) :
  interleave [a1; a2] [b1; b2] =
    [ [a1; a2; b1; b2]; [a1; b1; a2; b2]; [a1; b1; b2; a2];
      [b1; a1; a2; b2]; [b1; a1; b2; a2]; [b1; b2; a1; a2] ].
Proof. reflexivity. Qed.

(** X14. Two calls of [_update] that overlap while the mode is active
    (the listener storing the member of a datagram while the timeout
    thread applies its fallback, say): run one after the other, each is the
    one-step [_update]; in every interleaving of their statements [set] is
    called twice, the second time with the value that [_lights] ends with,
    which is one of the two, so the LEDs end showing [_lights]; but the
    first call may show either value, and there is an interleaving in which
    the first member is never shown, and one in which the second update is
    undone. *)
Theorem overlapping_updates (self : UdpListenerMode.t) (tl : TrafficLight.t)
    (l1 l2 : Lights) :
  UdpListenerMode._is_active self = true ->
  perform (_update l1) (self, tl) = UdpListenerMode._update self tl l1 /\
  (forall cs, In cs (interleave (_update l1) (_update l2)) ->
     let s' := perform cs (self, tl) in
     (UdpListenerMode._lights (fst s') = l1 \/
      UdpListenerMode._lights (fst s') = l2) /\
     (exists a, (a = l1 \/ a = l2) /\
        TrafficLight.calls (snd s') =
          TrafficLight.calls tl ++ [a; UdpListenerMode._lights (fst s')]) /\
     leds (snd s') =
       leds (TrafficLight.set tl (UdpListenerMode._lights (fst s'))) /\
     UdpListenerMode._is_active (fst s') = true) /\
  (exists cs, In cs (interleave (_update l1) (_update l2)) /\
     TrafficLight.calls (snd (perform cs (self, tl))) =
       TrafficLight.calls tl ++ [l2; l2]) /\
  (exists cs, In cs (interleave (_update l1) (_update l2)) /\
     UdpListenerMode._lights (fst (perform cs (self, tl))) = l1 /\
     TrafficLight.calls (snd (perform cs (self, tl))) =
       TrafficLight.calls tl ++ [l1; l1]).
Proof.
  intros Ha. destruct self as [l0 a T f lp p]. cbn in Ha. subst a.
  split; [reflexivity|]. split; [|split].
  - intros cs Hin. unfold _update in Hin. rewrite interleave_two in Hin.
    cbn [In] in Hin.
    destruct Hin as [<-|[<-|[<-|[<-|[<-|[<-|[]]]]]]]; cbn;
      (split; [auto|]); (split; [|split; reflexivity]);
      unfold TrafficLight.set; cbn [TrafficLight.calls];
      rewrite <- app_assoc; eexists; (split; [|reflexivity]); auto.
  - exists [Store l1; Store l2; Show; Show]. split.
    + unfold _update. rewrite interleave_two. cbn. auto.
    + cbn. unfold TrafficLight.set. cbn. now rewrite <- app_assoc.
  - exists [Store l2; Store l1; Show; Show]. split; [|split].
    + unfold _update. rewrite interleave_two. cbn. auto.
    + reflexivity.
    + cbn. unfold TrafficLight.set. cbn. now rewrite <- app_assoc.
Qed.

(** X18. A call of [enter()] that overlaps with a call of [_update] on a
    mode that is not active: run on its own, [enter()] is the one-step
    [enter()]; in every interleaving of their statements the mode ends
    active with [_lights] the value stored, and [set] is called once or
    twice, with the former [_lights] or the value stored; and there is an
    interleaving ([set] of [enter()], then the whole [_update], which finds
    the mode not active yet, then the activation) after which the only call
    of [set] was for the former [_lights]: the value is stored but not
    shown. *)
Theorem enter_during_update (self : UdpListenerMode.t) (tl : TrafficLight.t)
    (l : Lights) :
  UdpListenerMode._is_active self = false ->
  perform enter (self, tl) = UdpListenerMode.enter self tl /\
  (forall cs, In cs (interleave enter (_update l)) ->
     let s' := perform cs (self, tl) in
     let l0 := UdpListenerMode._lights self in
     UdpListenerMode._lights (fst s') = l /\
     UdpListenerMode._is_active (fst s') = true /\
     (TrafficLight.calls (snd s') = TrafficLight.calls tl ++ [l0; l] \/
      TrafficLight.calls (snd s') = TrafficLight.calls tl ++ [l0] \/
      TrafficLight.calls (snd s') = TrafficLight.calls tl ++ [l; l] \/
      TrafficLight.calls (snd s') = TrafficLight.calls tl ++ [l])) /\
  (exists cs, In cs (interleave enter (_update l)) /\
     let s' := perform cs (self, tl) in
     UdpListenerMode._lights (fst s') = l /\
     UdpListenerMode._is_active (fst s') = true /\
     TrafficLight.calls (snd s') =
       TrafficLight.calls tl ++ [UdpListenerMode._lights self] /\
     leds (snd s') = leds (TrafficLight.set tl (UdpListenerMode._lights self))).
Proof.
  intros Ha. destruct self as [l0 a T f lp p]. cbn in Ha. subst a.
  split; [reflexivity|]. split.
  - intros cs Hin. unfold enter, _update in Hin. rewrite interleave_two in Hin.
    cbn [In] in Hin.
    destruct Hin as [<-|[<-|[<-|[<-|[<-|[<-|[]]]]]]]; cbn;
      (split; [reflexivity|]); (split; [reflexivity|]);
      unfold TrafficLight.set; cbn [TrafficLight.calls];
      rewrite <- ?app_assoc; cbn [app]; auto.
  - exists [Write; Store l; Show; Activate]. split.
    + unfold enter, _update. rewrite interleave_two. cbn. auto.
    + cbn. auto.
Qed.

End Overlap.

(** The listener stores [RED] while the fallback stores [AMBER], on an
    active mode that shows [GREEN]. *)
Lemma overlapping_updates_witness :
  let self := UdpListenerMode.mk GREEN true 2 false UdpListenerMode.InRecvfrom
                UdpListenerMode.AtUpdate in
  (exists cs,
     In cs (UdpListenerStatements.interleave
              (UdpListenerStatements._update RED)
              (UdpListenerStatements._update AMBER)) /\
     TrafficLight.calls
       (snd (UdpListenerStatements.perform cs (self, TrafficLight.init))) =
       TrafficLight.calls TrafficLight.init ++ [AMBER; AMBER]) /\
  (exists cs,
     In cs (UdpListenerStatements.interleave
              (UdpListenerStatements._update RED)
              (UdpListenerStatements._update AMBER)) /\
     UdpListenerMode._lights
       (fst (UdpListenerStatements.perform cs (self, TrafficLight.init))) = RED /\
     TrafficLight.calls
       (snd (UdpListenerStatements.perform cs (self, TrafficLight.init))) =
       TrafficLight.calls TrafficLight.init ++ [RED; RED]).
Proof.
  cbv zeta.
  destruct (overlapping_updates
              (UdpListenerMode.mk GREEN true 2 false UdpListenerMode.InRecvfrom
                 UdpListenerMode.AtUpdate)
              TrafficLight.init RED AMBER eq_refl) as (_ & _ & Hnever & Hundone).
  split; [exact Hnever | exact Hundone].
Defined.

(** A mode that holds [AMBER] is entered while the byte 4 ([RED]) is
    handled: it may end active, holding [RED], and showing [AMBER]. *)
Lemma enter_during_update_witness :
  exists cs,
    In cs (UdpListenerStatements.interleave UdpListenerStatements.enter
             (UdpListenerStatements._update RED)) /\
    let s' := UdpListenerStatements.perform cs
                (UdpListenerMode.init 2, TrafficLight.init) in
    UdpListenerMode._lights (fst s') = RED /\
    UdpListenerMode._is_active (fst s') = true /\
    TrafficLight.calls (snd s') = TrafficLight.calls TrafficLight.init ++ [AMBER] /\
    leds (snd s') = leds (TrafficLight.set TrafficLight.init AMBER).
Proof.
  exact (proj2 (proj2 (enter_during_update (UdpListenerMode.init 2)
                         TrafficLight.init RED eq_refl))).
Defined.
